(** * video_inference.cpp: the three-stage frame pipeline

    A shallow embedding of [src/video_inference.cpp]: the [SafeQueue]
    template (a [std::queue] guarded by a mutex and a condition variable,
    with a [finished] latch), and [main], which opens a [cv::VideoCapture]
    and a [cv::VideoWriter] and runs three threads that hand frames over
    through two queues.

    - Every member function of [SafeQueue] holds the mutex [m] for its
      whole body, so a body is one atomic transition of the model;
      [c.wait(lock)] releases the mutex while the caller sleeps, so
      [dequeue] is cut at the wait: one transition runs from the
      acquisition of the mutex (or from the wake-up) to the next [return]
      or the next [c.wait].  The condition variable is its wait set;
      spurious wake-ups are transitions of their own.
    - The threads of [main] are interleaved by an arbitrary scheduler, one
      statement at a time.
    - A [cv::Mat] is a header on a shared pixel buffer: the buffers live in
      a store, [cap.read] and [drawBoundingBox] write into the buffer of
      the header they are given, [clone] allocates.
    - [int] counters are 32 bits wide.
    - What lies behind OpenCV and the detector is not modelled: the model
      records the frames handed to [out.write] in the order of the calls
      (not what the encoder does with them), [detect] and
      [drawBoundingBox] are functions of the pixels that always return,
      and no call throws. *)

From stdpp Require Import prelude.

Local Open Scope Z_scope.

(** ** Threads and machine integers *)

(** The threads of the program: [main] and the three [std::thread] objects
    it creates. *)
Inductive Thread := mainThread | captureThread | processingThread | writingThread.

#[global] Instance Thread_eq_dec : EqDecision Thread.
Proof. solve_decision. Defined.

(** [int] is 32 bits wide.  An [int] that is incremented past [INT_MAX] is
    modelled with the two's complement wrap-around of the target machines
    (the C++ standard leaves the overflow undefined). *)
Definition wrap_int (z : Z) : Z := (z + 2 ^ 31) mod 2 ^ 32 - 2 ^ 31.

(** [i++] on an [int]: the value of the expression is the old [i]. *)
Definition post_incr (i : Z) : Z * Z := (i, wrap_int (i + 1)).

(** ** SafeQueue<T> *)

Section SafeQueue.
Context {T : Type}.

(** The data members.  [q] lists the [std::queue] from its front; the
    mutex [m] is implicit in the atomicity of the transitions; [c] is the
    wait set of the condition variable: the threads suspended in
    [c.wait(lock)]. *)
Record SafeQueue := mkSafeQueue {
  q : list T;
  c : list Thread;
  finished : bool;
}.

(** [SafeQueue() : q(), m(), c() {}] with [bool finished = false]. *)
Definition SafeQueue_new : SafeQueue :=
  {| q := []; c := []; finished := false |}.

(** [c.notify_one()] resumes one of the suspended threads, if there is
    one (the first of the wait set here), [c.notify_all()] all of them. *)
Definition notify_one (ws : list Thread) : list Thread := drop 1 ws.
Definition notify_all (ws : list Thread) : list Thread := [].

(** [void enqueue(T t)]: [q.push(t); c.notify_one();]. *)
Definition enqueue (t : T) (s : SafeQueue) : SafeQueue :=
  {| q := q s ++ [t]; c := notify_one (c s); finished := finished s |}.

(** [void setFinished()]: [finished = true; c.notify_all();]. *)
Definition setFinished (s : SafeQueue) : SafeQueue :=
  {| q := q s; c := notify_all (c s); finished := true |}.

(** What one pass through the body of [bool dequeue(T& t)] ends in. *)
Inductive Outcome :=
| ret_true (t : T)   (* [t = q.front(); q.pop(); return true;] *)
| ret_false          (* [if (finished) return false;] *)
| wait.              (* [c.wait(lock);] the caller is suspended *)

(** One pass of thread [me] through [dequeue], from the test of
    [while (q.empty())] to a [return] or to [c.wait(lock)]:
<<
      while (q.empty()) {
          if (finished) return false;
          c.wait(lock);
      }
      t = q.front();
      q.pop();
      return true;
>>
    After a wake-up the loop tests [q.empty()] again, which is another
    pass. *)
Definition dequeue (me : Thread) (s : SafeQueue) : Outcome * SafeQueue :=
  match q s with
  | [] =>
      if finished s then (ret_false, s)
      else (wait, {| q := q s; c := c s ++ [me]; finished := finished s |})
  | t :: rest =>
      (ret_true t, {| q := rest; c := c s; finished := finished s |})
  end.

(** A thread suspended in [c.wait] resumes when a notification has taken
    it out of the wait set. *)
Definition suspended (me : Thread) (s : SafeQueue) : bool :=
  bool_decide (me ∈ c s).

(** A spurious wake-up, which [std::condition_variable::wait] permits:
    the thread leaves the wait set without a notification. *)
Definition spurious_wakeup (me : Thread) (s : SafeQueue) : SafeQueue :=
  {| q := q s; c := filter (λ w, w ≠ me) (c s); finished := finished s |}.

(** [n] successive passes of [me] through [dequeue], with what each ended
    in. *)
Fixpoint dequeue_many (me : Thread) (n : nat) (s : SafeQueue)
  : list Outcome * SafeQueue :=
  match n with
  | O => ([], s)
  | S n' =>
      let '(r, s1) := dequeue me s in
      let '(rs, s2) := dequeue_many me n' s1 in
      (r :: rs, s2)
  end.

(** A call of a member function by some thread; a call of [dequeue]
    stands for one pass of the thread through its body. *)
Inductive Call :=
| call_enqueue (t : T)
| call_dequeue (me : Thread)
| call_setFinished.

(** Calls made one after the other, in the order in which they take the
    mutex: the items that the passes of [dequeue] returned, in the order
    of the returns, and the queue that is left. *)
Fixpoint calls (cs : list Call) (s : SafeQueue) : list T * SafeQueue :=
  match cs with
  | [] => ([], s)
  | call_enqueue t :: rest => calls rest (enqueue t s)
  | call_dequeue me :: rest =>
      let '(r, s1) := dequeue me s in
      let '(ts, s2) := calls rest s1 in
      (match r with ret_true t => t :: ts | _ => ts end, s2)
  | call_setFinished :: rest => calls rest (setFinished s)
  end.

(** The items that the calls of [enqueue] among [cs] pushed. *)
Definition pushed (cs : list Call) : list T :=
  omap (λ x, match x with call_enqueue t => Some t | _ => None end) cs.

End SafeQueue.

Arguments SafeQueue : clear implicits.
Arguments Outcome : clear implicits.
Arguments Call : clear implicits.

(** ** The objects of [main] *)

Section Pipeline.
(** The contents of an image buffer, and what the detector reports; the
    two member functions of [YOLO11OBBDetector] that the pipeline calls
    ("YOLO11-OBB.hpp") are parameters.  [drawBoundingBox] draws into the
    image it is given: it maps the old contents of the buffer to the new
    ones. *)
Context {Pixels Detection : Type}.
Context (detect : Pixels → list Detection).
Context (drawBoundingBox : Pixels → list Detection → Pixels).

(** Pixel buffers live in a store.  A [cv::Mat] is a header that shares
    its buffer with the headers copied from it: [None] is the empty
    [cv::Mat()], [Some b] refers to buffer [b].  Passing a [cv::Mat] by
    value, [q.push(t)], [t = q.front()] and [std::make_pair] copy the
    header only. *)
Definition Heap : Type := list Pixels.
Definition Mat : Type := option nat.

Definition data (h : Heap) (m : Mat) : option Pixels := m ≫= λ b, h !! b.

(** [frame.clone()]: a header on a new buffer with the same contents. *)
Definition clone (h : Heap) (m : Mat) : Heap * Mat :=
  match data h m with
  | Some p => (h ++ [p], Some (length h))
  | None => (h, None)
  end.

(** What successive calls of [cap.read] find: a decoded frame or a read
    error; the end of the list is the end of the stream. *)
Inductive ReadResult := Frame (p : Pixels) | ReadError.

(** [cv::VideoCapture]: whether it is opened, and what remains of the
    stream. *)
Record VideoCapture := mkVideoCapture {
  cap_isOpened : bool;
  stream : list ReadResult;
}.

(** [cv::VideoWriter]: whether it is opened, and the frames that
    [write] has been called with, the oldest first. *)
Record VideoWriter := mkVideoWriter {
  out_isOpened : bool;
  written : list Pixels;
}.

(** The frames that reading the stream to its first failure yields. *)
Fixpoint yielded (st : list ReadResult) : list Pixels :=
  match st with
  | Frame p :: rest => p :: yielded rest
  | _ => []
  end.

(** [cap.read(image)]: the next frame is decoded into the buffer of
    [image] when it has one, in place, and into a new buffer otherwise;
    [false] and an empty [image] at the end of the stream, on a read
    error and when the capture is not opened. *)
Definition VideoCapture_read (cap : VideoCapture) (h : Heap) (image : Mat)
  : bool * VideoCapture * Heap * Mat :=
  if cap_isOpened cap then
    match stream cap with
    | Frame p :: rest =>
        let cap' := {| cap_isOpened := true; stream := rest |} in
        match image, data h image with
        | Some b, Some _ => (true, cap', <[b := p]> h, image)
        | _, _ => (true, cap', h ++ [p], Some (length h))
        end
    | ReadError :: rest =>
        (false, {| cap_isOpened := true; stream := rest |}, h, None)
    | [] => (false, cap, h, None)
    end
  else (false, cap, h, None).

(** The calls a run makes, in the order it makes them. *)
Inductive Event :=
| ev_spawn (t : Thread)                 (* [std::thread t(...)] *)
| ev_read (ok : bool)                   (* [cap.read(frame)] *)
| ev_enqueue_frame                      (* [frameQueue.enqueue] *)
| ev_finished_frameQueue                (* [frameQueue.setFinished()] *)
| ev_enqueue_processed (frameIndex : Z) (* [processedQueue.enqueue] *)
| ev_finished_processedQueue            (* [processedQueue.setFinished()] *)
| ev_join (t : Thread).                 (* [t.join()] *)

(** What the lambdas capture by reference ([[&]]): the objects of [main]
    that the threads share, with the store of the pixel buffers and the
    record of the calls. *)
Record Shared := mkShared {
  heap : Heap;
  cap : VideoCapture;
  out : VideoWriter;
  frameQueue : SafeQueue Mat;
  processedQueue : SafeQueue (Z * Mat);
  processingDone : bool;
  trace : list Event;
}.

Definition set_heap (h : Heap) (g : Shared) : Shared :=
  {| heap := h; cap := cap g; out := out g; frameQueue := frameQueue g;
     processedQueue := processedQueue g;
     processingDone := processingDone g; trace := trace g |}.
Definition set_cap (v : VideoCapture) (g : Shared) : Shared :=
  {| heap := heap g; cap := v; out := out g; frameQueue := frameQueue g;
     processedQueue := processedQueue g;
     processingDone := processingDone g; trace := trace g |}.
Definition set_out (v : VideoWriter) (g : Shared) : Shared :=
  {| heap := heap g; cap := cap g; out := v; frameQueue := frameQueue g;
     processedQueue := processedQueue g;
     processingDone := processingDone g; trace := trace g |}.
Definition set_frameQueue (v : SafeQueue Mat) (g : Shared) : Shared :=
  {| heap := heap g; cap := cap g; out := out g; frameQueue := v;
     processedQueue := processedQueue g;
     processingDone := processingDone g; trace := trace g |}.
Definition set_processedQueue (v : SafeQueue (Z * Mat)) (g : Shared)
  : Shared :=
  {| heap := heap g; cap := cap g; out := out g; frameQueue := frameQueue g;
     processedQueue := v;
     processingDone := processingDone g; trace := trace g |}.
Definition set_processingDone (v : bool) (g : Shared) : Shared :=
  {| heap := heap g; cap := cap g; out := out g; frameQueue := frameQueue g;
     processedQueue := processedQueue g;
     processingDone := v; trace := trace g |}.
Definition log (e : Event) (g : Shared) : Shared :=
  {| heap := heap g; cap := cap g; out := out g; frameQueue := frameQueue g;
     processedQueue := processedQueue g;
     processingDone := processingDone g; trace := trace g ++ [e] |}.

(** ** The three threads *)

(** Where a thread stands: at the next statement it will run. *)
Inductive CapturePC :=
| C_unstarted
| C_read          (* [while (cap.read(frame))] *)
| C_enqueue       (* [frameQueue.enqueue(frame.clone());] *)
| C_incr          (* [frameCount++;] *)
| C_setFinished   (* [frameQueue.setFinished();] *)
| C_done.

Inductive ProcessingPC :=
| P_unstarted
| P_dequeue       (* [while (frameQueue.dequeue(frame))] *)
| P_detect        (* [results = detector.detect(frame);] *)
| P_draw          (* [detector.drawBoundingBox(frame, results);] *)
| P_enqueue       (* [processedQueue.enqueue(make_pair(frameIndex++, frame));] *)
| P_setFinished   (* [processedQueue.setFinished();] *)
| P_done.

Inductive WritingPC :=
| W_unstarted
| W_dequeue       (* [while (processedQueue.dequeue(processedFrame))] *)
| W_write         (* [out.write(processedFrame.second);] *)
| W_done.

(** The local variables of the three lambdas. *)
Record CaptureLocals := mkCapture {
  c_pc : CapturePC;
  c_frame : Mat;
  frameCount : Z;
}.

Record ProcessingLocals := mkProcessing {
  p_pc : ProcessingPC;
  p_frame : Mat;
  results : list Detection;
  frameIndex : Z;
}.

Record WritingLocals := mkWriting {
  w_pc : WritingPC;
  processedFrame : Z * Mat;
}.

(** Capture thread:
<<
      cv::Mat frame;
      int frameCount = 0;
      while (cap.read(frame)){
          frameQueue.enqueue(frame.clone());
          frameCount++;
      }
      frameQueue.setFinished();
>> *)
Definition capture_step (g : Shared) (l : CaptureLocals)
  : option (Shared * CaptureLocals) :=
  match c_pc l with
  | C_unstarted | C_done => None
  | C_read =>
      let '(ok, cap', h', frame') :=
        VideoCapture_read (cap g) (heap g) (c_frame l) in
      Some (log (ev_read ok) (set_heap h' (set_cap cap' g)),
            {| c_pc := if ok then C_enqueue else C_setFinished;
               c_frame := frame'; frameCount := frameCount l |})
  | C_enqueue =>
      let '(h', copy) := clone (heap g) (c_frame l) in
      Some (log ev_enqueue_frame
              (set_frameQueue (enqueue copy (frameQueue g)) (set_heap h' g)),
            {| c_pc := C_incr; c_frame := c_frame l;
               frameCount := frameCount l |})
  | C_incr =>
      Some (g, {| c_pc := C_read; c_frame := c_frame l;
                  frameCount := snd (post_incr (frameCount l)) |})
  | C_setFinished =>
      Some (log ev_finished_frameQueue
              (set_frameQueue (setFinished (frameQueue g)) g),
            {| c_pc := C_done; c_frame := c_frame l;
               frameCount := frameCount l |})
  end.

(** Processing thread:
<<
      cv::Mat frame;
      int frameIndex = 0;
      while (frameQueue.dequeue(frame)){
          std::vector<Detection> results = detector.detect(frame);
          detector.drawBoundingBox(frame, results);
          processedQueue.enqueue(std::make_pair(frameIndex++, frame));
      }
      processedQueue.setFinished();
>>
    A thread that is in the wait set of the queue has no transition; when
    it has left the wait set it runs another pass of [dequeue].  [detect]
    and [drawBoundingBox] have no transition on an empty [cv::Mat]. *)
Definition processing_step (g : Shared) (l : ProcessingLocals)
  : option (Shared * ProcessingLocals) :=
  match p_pc l with
  | P_unstarted | P_done => None
  | P_dequeue =>
      if suspended processingThread (frameQueue g) then None
      else
        let '(r, fq) := dequeue processingThread (frameQueue g) in
        Some (set_frameQueue fq g,
              match r with
              | ret_true t =>
                  {| p_pc := P_detect; p_frame := t; results := results l;
                     frameIndex := frameIndex l |}
              | ret_false =>
                  {| p_pc := P_setFinished; p_frame := p_frame l;
                     results := results l; frameIndex := frameIndex l |}
              | wait => l
              end)
  | P_detect =>
      match data (heap g) (p_frame l) with
      | Some p =>
          Some (g, {| p_pc := P_draw; p_frame := p_frame l;
                      results := detect p; frameIndex := frameIndex l |})
      | None => None
      end
  | P_draw =>
      match p_frame l, data (heap g) (p_frame l) with
      | Some b, Some p =>
          Some (set_heap (<[b := drawBoundingBox p (results l)]> (heap g)) g,
                {| p_pc := P_enqueue; p_frame := p_frame l;
                   results := results l; frameIndex := frameIndex l |})
      | _, _ => None
      end
  | P_enqueue =>
      let '(i, i') := post_incr (frameIndex l) in
      Some (log (ev_enqueue_processed i)
              (set_processedQueue
                 (enqueue (i, p_frame l) (processedQueue g)) g),
            {| p_pc := P_dequeue; p_frame := p_frame l;
               results := results l; frameIndex := i' |})
  | P_setFinished =>
      Some (log ev_finished_processedQueue
              (set_processedQueue (setFinished (processedQueue g)) g),
            {| p_pc := P_done; p_frame := p_frame l; results := results l;
               frameIndex := frameIndex l |})
  end.

(** Writing thread:
<<
      std::pair<int, cv::Mat> processedFrame;
      while (processedQueue.dequeue(processedFrame)){
          out.write(processedFrame.second);
      }
>>
    [out.write] has no transition on an empty [cv::Mat]. *)
Definition writing_step (g : Shared) (l : WritingLocals)
  : option (Shared * WritingLocals) :=
  match w_pc l with
  | W_unstarted | W_done => None
  | W_dequeue =>
      if suspended writingThread (processedQueue g) then None
      else
        let '(r, pq) := dequeue writingThread (processedQueue g) in
        Some (set_processedQueue pq g,
              match r with
              | ret_true t => {| w_pc := W_write; processedFrame := t |}
              | ret_false =>
                  {| w_pc := W_done; processedFrame := processedFrame l |}
              | wait => l
              end)
  | W_write =>
      match data (heap g) (snd (processedFrame l)) with
      | Some p =>
          Some (set_out {| out_isOpened := out_isOpened (out g);
                           written := written (out g) ++ [p] |} g,
                {| w_pc := W_dequeue; processedFrame := processedFrame l |})
      | None => None
      end
  end.

(** ** [main] *)

(** Where [main] stands.  The detector is constructed before the first of
    these points; the queues and [processingDone] are constructed between
    [M_open_out] and [M_spawn_capture]. *)
Inductive MainPC :=
| M_open_cap           (* [cv::VideoCapture cap(videoPath); if (!cap.isOpened())] *)
| M_open_out           (* [cv::VideoWriter out(...); if (!out.isOpened())] *)
| M_spawn_capture      (* [std::thread captureThread(...)] *)
| M_spawn_processing   (* [std::thread processingThread(...)] *)
| M_spawn_writing      (* [std::thread writingThread(...)] *)
| M_join_capture       (* [captureThread.join();] *)
| M_join_processing    (* [processingThread.join();] *)
| M_join_writing       (* [writingThread.join();] *)
| M_release            (* [cap.release(); out.release(); ...; return 0;] *)
| M_returned (status : Z).

Record State := mkState {
  shared : Shared;
  m_pc : MainPC;
  capture : CaptureLocals;
  processing : ProcessingLocals;
  writing : WritingLocals;
}.

(** The state in which [main] starts, for a capture and a writer as their
    constructors will leave them (the paths are configuration: whether the
    two open, and what the stream holds, are the inputs of a run):
    [cv::Mat frame;] is empty, the counters are zero, the queues are new,
    [processingDone(false)]. *)
Definition init (cap0 : VideoCapture) (out_opens : bool) : State :=
  {| shared :=
       {| heap := []; cap := cap0;
          out := {| out_isOpened := out_opens; written := [] |};
          frameQueue := SafeQueue_new; processedQueue := SafeQueue_new;
          processingDone := false; trace := [] |};
     m_pc := M_open_cap;
     capture := {| c_pc := C_unstarted; c_frame := None; frameCount := 0 |};
     processing := {| p_pc := P_unstarted; p_frame := None; results := [];
                      frameIndex := 0 |};
     writing := {| w_pc := W_unstarted; processedFrame := (0, None) |} |}.

Definition set_m_pc (pc : MainPC) (s : State) : State :=
  {| shared := shared s; m_pc := pc; capture := capture s;
     processing := processing s; writing := writing s |}.

(** [main], one statement at a time.  [return -1] after a failed open;
    a [std::thread] runs from its construction on; [join] has no
    transition until the thread has run to its end. *)
Definition main_step (s : State) : option State :=
  match m_pc s with
  | M_open_cap =>
      Some (set_m_pc (if cap_isOpened (cap (shared s)) then M_open_out
                      else M_returned (-1)) s)
  | M_open_out =>
      Some (set_m_pc (if out_isOpened (out (shared s)) then M_spawn_capture
                      else M_returned (-1)) s)
  | M_spawn_capture =>
      Some {| shared := log (ev_spawn captureThread) (shared s);
              m_pc := M_spawn_processing;
              capture := {| c_pc := C_read; c_frame := c_frame (capture s);
                            frameCount := frameCount (capture s) |};
              processing := processing s; writing := writing s |}
  | M_spawn_processing =>
      Some {| shared := log (ev_spawn processingThread) (shared s);
              m_pc := M_spawn_writing;
              capture := capture s;
              processing :=
                {| p_pc := P_dequeue; p_frame := p_frame (processing s);
                   results := results (processing s);
                   frameIndex := frameIndex (processing s) |};
              writing := writing s |}
  | M_spawn_writing =>
      Some {| shared := log (ev_spawn writingThread) (shared s);
              m_pc := M_join_capture;
              capture := capture s; processing := processing s;
              writing :=
                {| w_pc := W_dequeue;
                   processedFrame := processedFrame (writing s) |} |}
  | M_join_capture =>
      match c_pc (capture s) with
      | C_done =>
          Some {| shared := log (ev_join captureThread) (shared s);
                  m_pc := M_join_processing; capture := capture s;
                  processing := processing s; writing := writing s |}
      | _ => None
      end
  | M_join_processing =>
      match p_pc (processing s) with
      | P_done =>
          Some {| shared := log (ev_join processingThread) (shared s);
                  m_pc := M_join_writing; capture := capture s;
                  processing := processing s; writing := writing s |}
      | _ => None
      end
  | M_join_writing =>
      match w_pc (writing s) with
      | W_done =>
          Some {| shared := log (ev_join writingThread) (shared s);
                  m_pc := M_release; capture := capture s;
                  processing := processing s; writing := writing s |}
      | _ => None
      end
  | M_release =>
      let g := shared s in
      Some {| shared :=
                set_out {| out_isOpened := false;
                           written := written (out g) |}
                  (set_cap {| cap_isOpened := false;
                              stream := stream (cap g) |} g);
              m_pc := M_returned 0; capture := capture s;
              processing := processing s; writing := writing s |}
  | M_returned _ => None
  end.

(** ** The interleaving *)

(** What the scheduler picks: a thread to run for one transition, or a
    suspended thread to wake up spuriously. *)
Inductive Action := run (t : Thread) | spurious (t : Thread).

Definition step (a : Action) (s : State) : option State :=
  match a with
  | run mainThread => main_step s
  | run captureThread =>
      '(g, l) ← capture_step (shared s) (capture s);
      Some {| shared := g; m_pc := m_pc s; capture := l;
              processing := processing s; writing := writing s |}
  | run processingThread =>
      '(g, l) ← processing_step (shared s) (processing s);
      Some {| shared := g; m_pc := m_pc s; capture := capture s;
              processing := l; writing := writing s |}
  | run writingThread =>
      '(g, l) ← writing_step (shared s) (writing s);
      Some {| shared := g; m_pc := m_pc s; capture := capture s;
              processing := processing s; writing := l |}
  | spurious processingThread =>
      if suspended processingThread (frameQueue (shared s)) then
        Some {| shared :=
                  set_frameQueue
                    (spurious_wakeup processingThread
                       (frameQueue (shared s))) (shared s);
                m_pc := m_pc s; capture := capture s;
                processing := processing s; writing := writing s |}
      else None
  | spurious writingThread =>
      if suspended writingThread (processedQueue (shared s)) then
        Some {| shared :=
                  set_processedQueue
                    (spurious_wakeup writingThread
                       (processedQueue (shared s))) (shared s);
                m_pc := m_pc s; capture := capture s;
                processing := processing s; writing := writing s |}
      else None
  | spurious _ => None
  end.

(** A run under a schedule: every action of the schedule has to be
    enabled when its turn comes. *)
Fixpoint exec (sched : list Action) (s : State) : option State :=
  match sched with
  | [] => Some s
  | a :: rest => s' ← step a s; exec rest s'
  end.

Definition reachable (s0 s : State) : Prop := ∃ sched, exec sched s0 = Some s.

(** The exit status of [main], once it has returned. *)
Definition exit_status (s : State) : option Z :=
  match m_pc s with
  | M_returned status => Some status
  | _ => None
  end.

(** A scheduler that always runs the first thread of [ts] that has a
    transition, for at most [fuel] transitions: the schedule it follows
    and the state it reaches. *)
Definition threads : list Thread :=
  [mainThread; captureThread; processingThread; writingThread].

Fixpoint first_enabled (ts : list Thread) (s : State)
  : option (Action * State) :=
  match ts with
  | [] => None
  | t :: rest =>
      match step (run t) s with
      | Some s' => Some (run t, s')
      | None => first_enabled rest s
      end
  end.

Fixpoint schedule (ts : list Thread) (fuel : nat) (s : State)
  : list Action * State :=
  match fuel with
  | O => ([], s)
  | S n =>
      match first_enabled ts s with
      | Some (a, s') =>
          let '(acts, s'') := schedule ts n s' in (a :: acts, s'')
      | None => ([], s)
      end
  end.

(** A scheduler that takes turns: the thread that has just run goes to
    the end of the list. *)
Fixpoint round_robin (ts : list Thread) (fuel : nat) (s : State)
  : list Action * State :=
  match fuel with
  | O => ([], s)
  | S n =>
      match first_enabled ts s with
      | Some (a, s') =>
          let ts' :=
            match a with
            | run t => filter (λ u, u ≠ t) ts ++ [t]
            | spurious _ => ts
            end in
          let '(acts, s'') := round_robin ts' n s' in (a :: acts, s'')
      | None => ([], s)
      end
  end.

(** ** What a run can observe *)

(** The state with another value of [processingDone]. *)
Definition with_processingDone (b : bool) (s : State) : State :=
  {| shared := set_processingDone b (shared s); m_pc := m_pc s;
     capture := capture s; processing := processing s;
     writing := writing s |}.

(** The state without the part of the stream that no call of [cap.read]
    will reach: what follows the first read error, and everything once
    the capture thread has left its loop. *)
Definition readable (s : State) : list ReadResult :=
  match c_pc (capture s) with
  | C_setFinished | C_done => []
  | _ => Frame <$> yielded (stream (cap (shared s)))
  end.

Definition forget_unread (s : State) : State :=
  {| shared :=
       set_cap {| cap_isOpened := cap_isOpened (cap (shared s));
                  stream := readable s |} (shared s);
     m_pc := m_pc s; capture := capture s; processing := processing s;
     writing := writing s |}.

(** ** What the runs keep invariant *)

(** The annotated frame: [detect], then [drawBoundingBox] with what
    [detect] found. *)
Definition annotate (p : Pixels) : Pixels := drawBoundingBox p (detect p).

(** How far [main] is constrains how far the three threads are. *)
Definition phase_ok (s : State) : Prop :=
  let cp := c_pc (capture s) in
  let pp := p_pc (processing s) in
  let wp := w_pc (writing s) in
  match m_pc s with
  | M_open_cap | M_open_out | M_spawn_capture =>
      cp = C_unstarted ∧ pp = P_unstarted ∧ wp = W_unstarted
  | M_spawn_processing =>
      cp ≠ C_unstarted ∧ pp = P_unstarted ∧ wp = W_unstarted
  | M_spawn_writing =>
      cp ≠ C_unstarted ∧ pp ≠ P_unstarted ∧ wp = W_unstarted
  | M_join_capture =>
      cp ≠ C_unstarted ∧ pp ≠ P_unstarted ∧ wp ≠ W_unstarted
  | M_join_processing =>
      cp = C_done ∧ pp ≠ P_unstarted ∧ wp ≠ W_unstarted
  | M_join_writing => cp = C_done ∧ pp = P_done ∧ wp ≠ W_unstarted
  | M_release => cp = C_done ∧ pp = P_done ∧ wp = W_done
  | M_returned status =>
      (status = 0 ∧ cp = C_done ∧ pp = P_done ∧ wp = W_done)
      ∨ (status = -1 ∧ cp = C_unstarted ∧ pp = P_unstarted
         ∧ wp = W_unstarted)
  end.

(** Until [main] has started the first thread it changes nothing but its
    own position. *)
Definition setup_ok (cap0 : VideoCapture) (out_opens : bool) (s : State)
  : Prop :=
  match m_pc s with
  | M_open_cap => s = init cap0 out_opens
  | M_open_out =>
      s = set_m_pc M_open_out (init cap0 out_opens)
      ∧ cap_isOpened cap0 = true
  | M_spawn_capture =>
      s = set_m_pc M_spawn_capture (init cap0 out_opens)
      ∧ cap_isOpened cap0 = true ∧ out_opens = true
  | M_returned status =>
      if decide (status = -1) then
        s = set_m_pc (M_returned (-1)) (init cap0 out_opens)
        ∧ (cap_isOpened cap0 = false ∨ out_opens = false)
      else cap_isOpened cap0 = true ∧ out_opens = true
  | _ =>
      cap_isOpened cap0 = true ∧ out_opens = true
      ∧ cap_isOpened (cap (shared s)) = true
  end.

(** A consumer is in the wait set of its queue only while the queue is
    empty and not finished; the latch of a queue is set exactly when its
    producer has run to its end; a consumer leaves its loop only when the
    producer is done and the queue is drained. *)
Definition waits_ok {T : Type} (me : Thread) (at_dequeue : Prop)
    (s : SafeQueue T) : Prop :=
  c s = [] ∨ (c s = [me] ∧ at_dequeue ∧ q s = [] ∧ finished s = false).

Definition sync_ok (s : State) : Prop :=
  let A := frameQueue (shared s) in
  let B := processedQueue (shared s) in
  finished A = match c_pc (capture s) with C_done => true | _ => false end
  ∧ finished B
    = match p_pc (processing s) with P_done => true | _ => false end
  ∧ waits_ok processingThread (p_pc (processing s) = P_dequeue) A
  ∧ waits_ok writingThread (w_pc (writing s) = W_dequeue) B
  ∧ match p_pc (processing s) with
    | P_setFinished | P_done => c_pc (capture s) = C_done ∧ q A = []
    | _ => True
    end
  ∧ match w_pc (writing s) with
    | W_done => p_pc (processing s) = P_done ∧ q B = []
    | _ => True
    end.

(** The frames on their way to the writer, from the oldest to the newest:
    the header of each with what remains to be done to its buffer.  They
    are the frame the writing thread holds, the second queue, the frame in
    the processing thread and the first queue. *)
Definition Pending : Type := Mat * (Pixels → Pixels).

Definition w_items (l : WritingLocals) : list Pending :=
  match w_pc l with
  | W_write => [(snd (processedFrame l), id)]
  | _ => []
  end.

Definition p_items (l : ProcessingLocals) : list Pending :=
  match p_pc l with
  | P_detect => [(p_frame l, annotate)]
  | P_draw => [(p_frame l, λ p, drawBoundingBox p (results l))]
  | P_enqueue => [(p_frame l, id)]
  | _ => []
  end.

Definition items (s : State) : list Pending :=
  w_items (writing s)
  ++ ((λ x, (snd x, id)) <$> q (processedQueue (shared s)))
  ++ p_items (processing s)
  ++ ((λ m, (m, annotate)) <$> q (frameQueue (shared s))).

(** What the writer will receive for a pending frame. *)
Definition develop (h : Heap) (x : Pending) : option Pixels :=
  snd x <$> data h (fst x).

(** The frame the capture thread is about to enqueue, and the frames it
    has still to read. *)
Definition c_contents (h : Heap) (v : VideoCapture) (l : CaptureLocals)
  : list (option Pixels) :=
  match c_pc l with
  | C_enqueue =>
      (annotate <$> data h (c_frame l))
      :: (Some ∘ annotate <$> yielded (stream v))
  | C_setFinished | C_done => []
  | _ => Some ∘ annotate <$> yielded (stream v)
  end.

(** What the writer has received and will receive, as the state
    determines it. *)
Definition contents (s : State) : list (option Pixels) :=
  let g := shared s in
  (Some <$> written (out g))
  ++ (develop (heap g) <$> items s)
  ++ c_contents (heap g) (cap g) (capture s).

(** All along a run that is every frame of the stream, annotated, in the
    order of the stream; and no two of the headers in use share a
    buffer, the header of the capture thread included. *)
Definition content_ok (fs : list Pixels) (s : State) : Prop :=
  contents s = (Some ∘ annotate <$> fs)
  ∧ NoDup (omap id ((fst <$> items s) ++ [c_frame (capture s)])).

(** The indices that the calls of [processedQueue.enqueue] carried, and
    counts of calls. *)
Definition enqueued_index (e : Event) : option Z :=
  match e with
  | ev_enqueue_processed i => Some i
  | _ => None
  end.

Definition indices (tr : list Event) : list Z := omap enqueued_index tr.

Definition is_read (e : Event) : bool :=
  match e with ev_read _ => true | _ => false end.
Definition is_failed_read (e : Event) : bool :=
  match e with ev_read false => true | _ => false end.
Definition is_finished_frameQueue (e : Event) : bool :=
  match e with ev_finished_frameQueue => true | _ => false end.
Definition is_finished_processedQueue (e : Event) : bool :=
  match e with ev_finished_processedQueue => true | _ => false end.

Definition count (f : Event → bool) (tr : list Event) : nat :=
  length (List.filter f tr).

(** The capture is open as long as the capture thread reads from it. *)
Definition reading_ok (s : State) : Prop :=
  match c_pc (capture s) with
  | C_read | C_enqueue | C_incr => cap_isOpened (cap (shared s)) = true
  | _ => True
  end.

Definition trace_ok (fs : list Pixels) (s : State) : Prop :=
  let tr := trace (shared s) in
  (∃ n : nat,
      indices tr = (λ k, wrap_int (Z.of_nat k)) <$> seq 0 n
      ∧ frameIndex (processing s) = wrap_int (Z.of_nat n))
  ∧ count is_finished_frameQueue tr
    = (match c_pc (capture s) with C_done => 1 | _ => 0 end)%nat
  ∧ count is_finished_processedQueue tr
    = (match p_pc (processing s) with P_done => 1 | _ => 0 end)%nat
  ∧ count is_failed_read tr
    = (match c_pc (capture s) with
       | C_setFinished | C_done => 1 | _ => 0 end)%nat
  ∧ (count is_read tr
     + match c_pc (capture s) with
       | C_setFinished | C_done => 0
       | _ => S (length (yielded (stream (cap (shared s)))))
       end = S (length fs))%nat.

(** Every pair that was enqueued is in the second queue, in the writing
    thread or written. *)
Definition index_ok (s : State) : Prop :=
  length (indices (trace (shared s)))
  = (length (written (out (shared s))) + length (w_items (writing s))
     + length (q (processedQueue (shared s))))%nat.

(** Everything the runs from [init cap0 out_opens] keep invariant. *)
Definition invariant (cap0 : VideoCapture) (out_opens : bool) (s : State)
  : Prop :=
  phase_ok s
  ∧ setup_ok cap0 out_opens s
  ∧ sync_ok s
  ∧ trace_ok (yielded (stream cap0)) s
  ∧ content_ok (yielded (stream cap0)) s
  ∧ index_ok s.

(** ** A bound on the length of the runs *)

(** What each thread has still to do at most, counted in transitions.
    A frame still to be read costs 11 transitions, a frame in the first
    queue 7, a frame in the second queue 2; a consumer that is not
    suspended may still run one pass of [dequeue] that ends in
    [c.wait]. *)
Definition awake {T : Type} (me : Thread) (s : SafeQueue T) : nat :=
  if suspended me s then 0 else 1.

Definition main_rank (pc : MainPC) : nat :=
  match pc with
  | M_open_cap => 9
  | M_open_out => 8
  | M_spawn_capture => 7
  | M_spawn_processing => 6
  | M_spawn_writing => 5
  | M_join_capture => 4
  | M_join_processing => 3
  | M_join_writing => 2
  | M_release => 1
  | M_returned _ => 0
  end.

Definition capture_rank (to_read : nat) (pc : CapturePC) : nat :=
  match pc with
  | C_unstarted | C_read => 11 * to_read + 3
  | C_enqueue => 11 * to_read + 13
  | C_incr => 11 * to_read + 4
  | C_setFinished => 2
  | C_done => 0
  end.

Definition processing_rank (aw : nat) (pc : ProcessingPC) : nat :=
  match pc with
  | P_unstarted => 3
  | P_dequeue => 2 + aw
  | P_detect => 9
  | P_draw => 8
  | P_enqueue => 7
  | P_setFinished => 2
  | P_done => 0
  end.

Definition writing_rank (aw : nat) (pc : WritingPC) : nat :=
  match pc with
  | W_unstarted => 2
  | W_dequeue => 1 + aw
  | W_write => 3
  | W_done => 0
  end.

Definition measure (s : State) : nat :=
  let g := shared s in
  (main_rank (m_pc s)
   + capture_rank (length (yielded (stream (cap g)))) (c_pc (capture s))
   + 7 * length (q (frameQueue g))
   + processing_rank (awake processingThread (frameQueue g))
       (p_pc (processing s))
   + 2 * length (q (processedQueue g))
   + writing_rank (awake writingThread (processedQueue g))
       (w_pc (writing s)))%nat.

Definition is_run (a : Action) : bool :=
  match a with run _ => true | spurious _ => false end.

(** Whether [main] has run [cap.release(); out.release();], which it does
    on its way to [return 0]. *)
Definition released (s : State) : bool :=
  match m_pc s with
  | M_returned status => bool_decide (status = 0)
  | _ => false
  end.

(** The calls of [cap.read] that returned a frame. *)
Definition is_ok_read (e : Event) : bool :=
  match e with ev_read true => true | _ => false end.

(** [frameCount] has counted the frames read, but for the frame that the
    capture thread is about to enqueue or has just enqueued. *)
Definition frameCount_ok (s : State) : Prop :=
  ∃ n : nat,
    frameCount (capture s) = wrap_int (Z.of_nat n)
    ∧ count is_ok_read (trace (shared s))
      = (n + match c_pc (capture s) with
             | C_enqueue | C_incr => 1
             | _ => 0
             end)%nat.

(** The pairs on their way to [out.write], the oldest first: the pair the
    writing thread has taken from the second queue, then the queue. *)
Definition w_pairs (l : WritingLocals) : list (Z * Mat) :=
  match w_pc l with
  | W_write => [processedFrame l]
  | _ => []
  end.

Definition pairs (s : State) : list (Z * Mat) :=
  w_pairs (writing s) ++ q (processedQueue (shared s)).

(** Their indices continue the count of the frames written. *)
Definition pairs_ok (s : State) : Prop :=
  fst <$> pairs s
  = (λ k, wrap_int (Z.of_nat k))
      <$> seq (length (written (out (shared s)))) (length (pairs s)).

End Pipeline.

(** ** Runs on small inputs *)

(** Frames are numbers; the detector reports the frame itself and the
    drawing adds 100 for every detection: frame [p] is annotated to
    [p + 100]. *)
Definition ex_detect (p : nat) : list nat := [p].
Definition ex_draw (p : nat) (ds : list nat) : nat := (p + 100 * length ds)%nat.

Definition ex_cap (video : list (@ReadResult nat)) : @VideoCapture nat :=
  {| cap_isOpened := true; stream := video |}.

Definition ex_closed_cap : @VideoCapture nat :=
  {| cap_isOpened := false; stream := [Frame 1%nat] |}.

(** The state in which [main] starts when the source does not open, and
    the state in which it has returned -1. *)
Definition ex_closed_init : @State nat nat := init ex_closed_cap true.
Definition ex_failed : @State nat nat :=
  set_m_pc (M_returned (-1)) ex_closed_init.

Definition ex_video : list (@ReadResult nat) :=
  [Frame 1; Frame 2; Frame 3; Frame 4; Frame 5]%nat.

(** The same stream, truncated by a read error after the second frame. *)
Definition ex_broken_video : list (@ReadResult nat) :=
  [Frame 1; Frame 2; ReadError; Frame 4; Frame 5]%nat.

Definition ex_init (video : list (@ReadResult nat)) : @State nat nat :=
  init (ex_cap video) true.

(** Two schedulers: one lets each thread run as long as it can, [main]
    first; the other gives the threads their turns, the consumers first,
    which then wait on the empty queues and are woken up by the calls of
    [enqueue]. *)
Definition ex_eager (video : list (@ReadResult nat))
  : list Action * @State nat nat :=
  schedule ex_detect ex_draw threads 200 (ex_init video).

Definition ex_turns (video : list (@ReadResult nat))
  : list Action * @State nat nat :=
  round_robin ex_detect ex_draw (rev threads) 200 (ex_init video).

(** A run in which the two consumers also wake up spuriously. *)
Definition ex_spurious_sched : list Action :=
  [run mainThread; run mainThread; run mainThread; run mainThread;
   run mainThread; run processingThread; run writingThread;
   spurious processingThread; run processingThread;
   spurious writingThread; run writingThread].

(** A stream of [2^31 + 1] frames, for a detector that finds nothing. *)
Definition long_video : list (@ReadResult unit) :=
  replicate (Z.to_nat 2147483649) (Frame ()).

Definition no_detect (p : unit) : list unit := [].
Definition no_draw (p : unit) (ds : list unit) : unit := p.

(** The two schedulers stopped after [n] transitions. *)
Definition ex_eager_for (n : nat) (video : list (@ReadResult nat))
  : list Action * @State nat nat :=
  schedule ex_detect ex_draw threads n (ex_init video).

Definition ex_turns_for (n : nat) (video : list (@ReadResult nat))
  : list Action * @State nat nat :=
  round_robin ex_detect ex_draw (rev threads) n (ex_init video).

(** * Properties *)

(** ** The queue *)

Section SafeQueueFacts.
Context {T : Type}.
Implicit Types (s : SafeQueue T) (t : T) (me : Thread).

Lemma q_enqueue t s : q (enqueue t s) = q s ++ [t].
Proof. reflexivity. Qed.

Lemma dequeue_cons me s t rest :
  q s = t :: rest →
  dequeue me s = (ret_true t, {| q := rest; c := c s; finished := finished s |}).
Proof. intros Hq. unfold dequeue. by rewrite Hq. Qed.

Lemma dequeue_ret_false me s :
  (dequeue me s).1 = ret_false ↔ q s = [] ∧ finished s = true.
Proof.
  unfold dequeue. destruct (q s) as [|t rest]; [destruct (finished s)|];
    simpl; (split; [done|by intros [? ?]]).
Qed.

(** The items of a queue come out in the order of the list, and after
    them the end of the stream when the queue is finished. *)
Lemma dequeue_many_items me s :
  (dequeue_many me (length (q s)) s).1 = ret_true <$> q s
  ∧ (dequeue_many me (length (q s)) s).2
    = {| q := []; c := c s; finished := finished s |}.
Proof.
  destruct s as [items ws f]. simpl.
  induction items as [|t rest IH]; simpl; [done|].
  unfold dequeue. simpl.
  destruct (dequeue_many me (length rest)
              {| q := rest; c := ws; finished := f |}) as [rs s2].
  simpl in *. destruct IH as [-> ->]. done.
Qed.

Lemma dequeue_many_app me (n k : nat) s :
  (dequeue_many me (n + k) s).1
  = (dequeue_many me n s).1
    ++ (dequeue_many me k (dequeue_many me n s).2).1.
Proof.
  revert s. induction n as [|n IH]; intros s; simpl; [done|].
  destruct (dequeue me s) as [r s1]. specialize (IH s1).
  destruct (dequeue_many me (n + k) s1) as [rs s2].
  destruct (dequeue_many me n s1) as [rs1 s3]. simpl in *.
  by rewrite IH.
Qed.

Lemma dequeue_many_drained me s :
  finished s = true →
  (dequeue_many me (length (q s) + 1) s).1 = (ret_true <$> q s) ++ [ret_false].
Proof.
  intros Hf. rewrite dequeue_many_app.
  destruct (dequeue_many_items me s) as [-> ->]. simpl.
  unfold dequeue. simpl. by rewrite Hf.
Qed.

(** C2: for every queue state, [dequeue] removes and returns the head
    item whenever the queue is not empty, whatever [finished] is; it
    returns the end of the stream ([false]) exactly when the queue is
    empty and [finished] is set, and so never while an item remains; the
    order is first in, first out: [enqueue] appends at the tail, and the
    items of a queue come out from the head to the tail. *)
Theorem dequeue_fifo me s :
  (∀ t rest, q s = t :: rest →
     dequeue me s
     = (ret_true t, {| q := rest; c := c s; finished := finished s |}))
  ∧ ((dequeue me s).1 = ret_false ↔ q s = [] ∧ finished s = true)
  ∧ (q s ≠ [] → (dequeue me s).1 ≠ ret_false)
  ∧ (∀ t, q (enqueue t s) = q s ++ [t])
  ∧ (dequeue_many me (length (q s)) s).1 = ret_true <$> q s.
Proof.
  split_and!.
  - intros t rest. apply dequeue_cons.
  - apply dequeue_ret_false.
  - intros Hne Hr. apply dequeue_ret_false in Hr as [? _]. done.
  - done.
  - apply dequeue_many_items.
Qed.

(** C5: on an empty queue on which [setFinished] has been called,
    [dequeue] returns the end of the stream in its first pass: it does
    not reach [c.wait], and it leaves the queue and its wait set as they
    are.  [setFinished] itself leaves no thread in the wait set. *)
Theorem dequeue_after_setFinished me s :
  q s = [] →
  (finished s = true → dequeue me s = (ret_false, s))
  ∧ dequeue me (setFinished s) = (ret_false, setFinished s)
  ∧ suspended me (setFinished s) = false.
Proof.
  intros Hq. unfold dequeue, setFinished, suspended. simpl. rewrite Hq.
  split_and!; [by intros ->|done|done].
Qed.

Lemma setFinished_idemp s : setFinished (setFinished s) = setFinished s.
Proof. reflexivity. Qed.

(** C6: calling [setFinished] once more, any number of times, leaves the
    queue in the state the first call left it in; the call sets
    [finished], and no member function resets it. *)
Theorem setFinished_idempotent s (n : nat) :
  Nat.iter (S n) setFinished s = setFinished s
  ∧ finished (setFinished s) = true
  ∧ (∀ t me, finished s = true →
       finished (enqueue t s) = true
       ∧ finished (dequeue me s).2 = true
       ∧ finished (setFinished s) = true
       ∧ finished (spurious_wakeup me s) = true).
Proof.
  split_and!; [|done|].
  - induction n as [|n IH]; [done|].
    change (Nat.iter (S (S n)) setFinished s)
      with (setFinished (Nat.iter (S n) setFinished s)).
    by rewrite IH.
  - intros t me Hf. unfold dequeue.
    destruct (q s); [rewrite Hf|]; simpl; done.
Qed.

(** C10: [enqueue] does not look at [finished]: on a finished queue it
    still appends the item at the tail and leaves [finished] set; the
    next [dequeue] then returns an item, not the end of the stream, and
    the item that was enqueued is returned once the items before it have
    been, at once when the queue was empty; only then does [dequeue]
    return the end of the stream. *)
Theorem enqueue_after_setFinished me t s :
  finished s = true →
  q (enqueue t s) = q s ++ [t]
  ∧ finished (enqueue t s) = true
  ∧ (∃ t' s', dequeue me (enqueue t s) = (ret_true t', s'))
  ∧ (q s = [] →
     dequeue me (enqueue t s)
     = (ret_true t, {| q := []; c := notify_one (c s); finished := true |}))
  ∧ (dequeue_many me (length (q s) + 2) (enqueue t s)).1
    = (ret_true <$> q s) ++ [ret_true t; ret_false].
Proof.
  intros Hf. split_and!; [done|done| | |].
  - unfold dequeue, enqueue. simpl. destruct (q s); simpl; by eexists _, _.
  - intros Hq. unfold dequeue, enqueue. simpl. by rewrite Hq, Hf.
  - replace (length (q s) + 2)%nat with (length (q (enqueue t s)) + 1)%nat
      by (simpl; rewrite length_app; simpl; lia).
    rewrite dequeue_many_drained by done. simpl.
    by rewrite fmap_app, <- app_assoc.
Qed.

(** *** Calls in any order *)

(** X1: whatever calls of [enqueue], [dequeue] and [setFinished] the
    threads make, in whatever order they take the mutex, the items that
    [dequeue] has returned followed by the items still queued are the
    items the queue held at first followed by the items pushed, in the
    order of the pushes: no item is lost, duplicated or overtaken.
    [finished] is set at the end exactly when it was set at first or
    [setFinished] was among the calls. *)
Theorem calls_conserve_items (cs : list (Call T)) s :
  (calls cs s).1 ++ q (calls cs s).2 = q s ++ pushed cs
  ∧ (finished (calls cs s).2 = true
     ↔ finished s = true ∨ call_setFinished ∈ cs).
Proof.
  revert s. induction cs as [|[t|me|] cs IH]; intros s; simpl.
  - rewrite app_nil_r. split; [done|]. split; [by left|].
    intros [?|Hin]; [done|by apply elem_of_nil in Hin].
  - destruct (IH (enqueue t s)) as [IH1 IH2]. split.
    + rewrite IH1. simpl. by rewrite <- app_assoc.
    + rewrite IH2. simpl. rewrite elem_of_cons.
      split; [intros [?|?]; auto|intros [?|[?|?]]; auto; discriminate].
  - destruct s as [[|t rest] ws f]; unfold dequeue; simpl.
    + destruct f.
      * destruct (IH {| q := []; c := ws; finished := true |}) as [IH1 IH2].
        destruct (calls cs _) as [ts s2]. simpl in *.
        rewrite IH1, IH2, elem_of_cons. split; [done|].
        split; [intros [?|?]; auto|intros [?|[?|?]]; auto; discriminate].
      * destruct (IH {| q := []; c := ws ++ [me]; finished := false |})
          as [IH1 IH2].
        destruct (calls cs _) as [ts s2]. simpl in *.
        rewrite IH1, IH2, elem_of_cons. split; [done|].
        split; [intros [?|?]; auto|intros [?|[?|?]]; auto; discriminate].
    + destruct (IH {| q := rest; c := ws; finished := f |}) as [IH1 IH2].
      destruct (calls cs _) as [ts s2]. simpl in *.
      rewrite IH1, IH2, elem_of_cons. split; [done|].
      split; [intros [?|?]; auto|intros [?|[?|?]]; auto; discriminate].
  - destruct (IH (setFinished s)) as [IH1 IH2]. split.
    + by rewrite IH1.
    + rewrite IH2. simpl. split; [intros _|by left]. right. left.
Qed.

(** *** Waiting and waking up *)

Lemma filter_ne_snoc me (ws : list Thread) :
  me ∉ ws → filter (λ w, w ≠ me) (ws ++ [me]) = ws.
Proof.
  induction ws as [|w ws IH]; intros Hme; simpl.
  - rewrite filter_cons_False; [done|]. intros Hne. by apply Hne.
  - apply not_elem_of_cons in Hme as [Hne Hme].
    rewrite filter_cons_True by done. by rewrite IH.
Qed.

(** X2: a thread that calls [dequeue] on an empty queue that is not
    finished, with no other thread waiting, is suspended in [c.wait].
    The next [enqueue] wakes it up, and its next pass through the loop
    returns the item that was pushed and leaves the queue as it was
    before the thread came; [setFinished] wakes it up as well, and its
    next pass returns [false]. *)
Theorem dequeue_waits_until_notified me t s :
  q s = [] → finished s = false → c s = [] →
  (dequeue me s).1 = wait
  ∧ suspended me (dequeue me s).2 = true
  ∧ suspended me (enqueue t (dequeue me s).2) = false
  ∧ dequeue me (enqueue t (dequeue me s).2) = (ret_true t, s)
  ∧ suspended me (setFinished (dequeue me s).2) = false
  ∧ dequeue me (setFinished (dequeue me s).2) = (ret_false, setFinished s).
Proof.
  destruct s as [items ws f]. simpl. intros -> -> ->.
  unfold dequeue, enqueue, setFinished, suspended. simpl.
  split_and!; try done.
  apply bool_decide_eq_true. left.
Qed.

(** X3: a spurious wake-up does no harm: the thread that wakes up without
    a notification finds the queue still empty and not finished, and its
    next pass suspends it again, in the state in which it was suspended
    before; the threads that wait with it are not woken. *)
Theorem spurious_wakeup_waits_again me s :
  q s = [] → finished s = false → me ∉ c s →
  suspended me (dequeue me s).2 = true
  ∧ spurious_wakeup me (dequeue me s).2 = s
  ∧ dequeue me (spurious_wakeup me (dequeue me s).2)
    = (wait, (dequeue me s).2)
  ∧ (∀ w, w ≠ me →
       suspended w (spurious_wakeup me (dequeue me s).2)
       = suspended w (dequeue me s).2).
Proof.
  destruct s as [items ws f]. simpl. intros -> -> Hme.
  unfold dequeue, spurious_wakeup, suspended. simpl.
  rewrite filter_ne_snoc by done. split_and!; try done.
  - apply bool_decide_eq_true, elem_of_app. right. left.
  - intros w Hw. apply bool_decide_ext. rewrite elem_of_app.
    rewrite list_elem_of_singleton.
    split; [intros ?; by left|intros [?|?]; done].
Qed.
End SafeQueueFacts.

(** ** The pipeline *)

Section PipelineFacts.
Context {Pixels Detection : Type}.
Context (detect : Pixels → list Detection).
Context (drawBoundingBox : Pixels → list Detection → Pixels).

Local Abbreviation State := (@State Pixels Detection).
Local Abbreviation step := (step detect drawBoundingBox).
Local Abbreviation exec := (exec detect drawBoundingBox).
Local Abbreviation reachable := (reachable detect drawBoundingBox).
Local Abbreviation annotate := (annotate detect drawBoundingBox).
Local Abbreviation contents := (contents detect drawBoundingBox).
Local Abbreviation content_ok := (content_ok detect drawBoundingBox).
Local Abbreviation invariant := (invariant detect drawBoundingBox).
Local Abbreviation init := (@init Pixels Detection).

(** *** Runs *)

Lemma exec_app (xs ys : list Action) (s : State) :
  exec (xs ++ ys) s = exec xs s ≫= exec ys.
Proof.
  revert s. induction xs as [|a xs IH]; intros s; simpl.
  - reflexivity.
  - destruct (step a s) as [s'|]; simpl; [apply IH | reflexivity].
Qed.

Lemma reachable_refl (s : State) : reachable s s.
Proof. exists []. reflexivity. Qed.

Lemma reachable_step (s0 s s' : State) (a : Action) :
  reachable s0 s → step a s = Some s' → reachable s0 s'.
Proof.
  intros [sched Hs] Ha. exists (sched ++ [a]).
  rewrite exec_app, Hs. simpl. rewrite Ha. reflexivity.
Qed.

(** An invariant of the transitions holds all along every run. *)
Lemma exec_invariant (P : State → Prop) :
  (∀ a s s', P s → step a s = Some s' → P s') →
  ∀ sched s s', P s → exec sched s = Some s' → P s'.
Proof.
  intros Hstep sched. induction sched as [|a sched IH]; intros s s' HP; simpl.
  - intros [= <-]. exact HP.
  - destruct (step a s) as [s1|] eqn:Ha; simpl; [|discriminate].
    apply IH. eapply Hstep; eauto.
Qed.

Lemma reachable_invariant (P : State → Prop) (s0 : State) :
  P s0 →
  (∀ a s s', P s → step a s = Some s' → P s') →
  ∀ s, reachable s0 s → P s.
Proof.
  intros H0 Hstep s [sched Hs]. eapply exec_invariant; eauto.
Qed.

(** Case analysis on a transition. *)
Ltac destruct_state s :=
  destruct s as [[h v o [qA cA fA] [qB cB fB] d tr] mpc [cpc cfr cnt]
                   [ppc pfr res idx] [wpc wfr]].

Ltac step_pre H :=
  match type of H with
  | step ?a ?s = Some _ =>
      destruct_state s; destruct a as [[]|[]]; simpl in *; try discriminate
  end.

Ltac step_go H :=
  unfold step, main_step, capture_step, processing_step, writing_step,
    VideoCapture_read, clone, dequeue, suspended, post_incr in H;
  simpl in H;
  repeat (match type of H with
          | context [match ?x with _ => _ end] =>
              lazymatch x with
              | context [match _ with _ => _ end] => fail
              | _ => destruct x eqn:?
              end
          end; simpl in H; try discriminate);
  simplify_eq; simpl in *;
  repeat match goal with
    | E : bool_decide _ = true |- _ => apply bool_decide_eq_true in E
    | E : bool_decide _ = false |- _ => apply bool_decide_eq_false in E
    end;
  try match goal with
    | E : _ ∈ [] |- _ => by apply elem_of_nil in E
    | E : ?x ∉ [?x] |- _ => by destruct E; left
    end.

Ltac step_cases H := step_pre H; step_go H.

(** *** The invariants, one at a time *)

Lemma phase_ok_step (a : Action) (s s' : State) :
  phase_ok s → step a s = Some s' → phase_ok s'.
Proof.
  intros HP H. step_cases H; unfold phase_ok in *; simpl in *;
    repeat case_match; simplify_eq;
    intuition (try discriminate; try congruence).
Qed.

Lemma setup_ok_step cap0 oo (a : Action) (s s' : State) :
  phase_ok s → setup_ok cap0 oo s → step a s = Some s' → setup_ok cap0 oo s'.
Proof.
  intros HP HS H. step_cases H; unfold phase_ok, setup_ok in *; simpl in *;
    repeat case_match; unfold init, set_m_pc, SafeQueue_new in *; simpl in *;
    destruct_and?; simplify_eq; simpl in *;
    try (intuition (try discriminate; try congruence); fail).
Qed.

Lemma sync_ok_step (a : Action) (s s' : State) :
  phase_ok s → sync_ok s → step a s = Some s' → sync_ok s'.
Proof.
  intros HP HS H. step_pre H.
  all: unfold sync_ok, waits_ok in HS; simpl in HS.
  all: destruct HS as (HfA & HfB & HwA & HwB & HP' & HW).
  all: destruct HwA as [?|(? & ? & ? & ?)]; destruct HwB as [?|(? & ? & ? & ?)];
    simplify_eq.
  all: step_go H.
  all: unfold sync_ok, waits_ok; simpl.
  all: unfold phase_ok in HP; simpl in HP; destruct_and?; simplify_eq.
  all: split_and!; try done; try (by left); try (right; done).
  all: repeat case_match; destruct_and?; simplify_eq; try done.
Qed.

Lemma reading_ok_intro cap0 oo (s : State) :
  phase_ok s → setup_ok cap0 oo s → reading_ok s.
Proof.
  destruct_state s. unfold phase_ok, setup_ok, reading_ok. simpl.
  intros HP HS. repeat case_match; destruct_and?; destruct_or?;
    destruct_and?; simplify_eq; done.
Qed.

(** *** Machine integers, counts *)

Lemma wrap_int_small (z : Z) : -2 ^ 31 ≤ z < 2 ^ 31 → wrap_int z = z.
Proof. intros Hz. unfold wrap_int. rewrite Z.mod_small; lia. Qed.

Lemma wrap_int_succ (z : Z) : wrap_int (wrap_int z + 1) = wrap_int (z + 1).
Proof.
  unfold wrap_int. f_equal.
  replace ((z + 2 ^ 31) `mod` 2 ^ 32 - 2 ^ 31 + 1 + 2 ^ 31)
    with ((z + 2 ^ 31) `mod` 2 ^ 32 + 1) by lia.
  rewrite Z.add_mod_idemp_l by lia. f_equal. lia.
Qed.

Lemma count_snoc (f : @Event → bool) (tr : list Event) (e : Event) :
  count f (tr ++ [e]) = (count f tr + if f e then 1 else 0)%nat.
Proof.
  unfold count. rewrite List.filter_app, length_app. simpl.
  destruct (f e); reflexivity.
Qed.

Lemma indices_snoc (tr : list Event) (e : Event) :
  indices (tr ++ [e])
  = indices tr ++ match enqueued_index e with Some i => [i] | None => [] end.
Proof.
  unfold indices. rewrite omap_app. simpl. destruct (enqueued_index e); done.
Qed.

Lemma trace_ok_step fs (a : Action) (s s' : State) :
  phase_ok s → reading_ok s → trace_ok fs s → step a s = Some s' →
  trace_ok fs s'.
Proof.
  intros HP HR HT H. step_pre H.
  all: unfold trace_ok, reading_ok, phase_ok in *; simpl in *.
  all: destruct HT as ((n & Hidx & Hfi) & HcA & HcB & Hfail & Hreads).
  all: step_go H; destruct_and?; simplify_eq.
  all: rewrite ?count_snoc, ?indices_snoc; simpl; rewrite ?app_nil_r.
  all: try (split_and!; [by exists n|lia..]).
  all: split_and!; try lia.
  all: exists (S n); rewrite seq_S, fmap_app, Hidx, wrap_int_succ; simpl.
  all: split; [done|f_equal; lia].
Qed.

(** *** Pixel buffers *)

Lemma data_alloc (h : @Heap Pixels) (p : Pixels) (m : Mat) :
  is_Some (data h m) → data (h ++ [p]) m = data h m.
Proof.
  destruct m as [b|]; simpl; [|done]. intros [x Hx].
  rewrite Hx. apply lookup_app_l_Some. done.
Qed.

Lemma data_alloc_new (h : @Heap Pixels) (p : Pixels) :
  data (h ++ [p]) (Some (length h)) = Some p.
Proof. simpl. apply list_lookup_middle. done. Qed.

Lemma data_fresh (h : @Heap Pixels) : data h (Some (length h)) = None.
Proof. simpl. apply lookup_ge_None. lia. Qed.

Lemma data_insert_eq (h : @Heap Pixels) (b : nat) (p : Pixels) :
  is_Some (data h (Some b)) → data (<[b := p]> h) (Some b) = Some p.
Proof.
  simpl. intros Hb. apply list_lookup_insert_eq.
  by apply lookup_lt_is_Some.
Qed.

Lemma data_insert_ne (h : @Heap Pixels) (b : nat) (p : Pixels) (m : Mat) :
  m ≠ Some b → data (<[b := p]> h) m = data h m.
Proof.
  destruct m as [b'|]; simpl; [|done]. intros Hne.
  apply list_lookup_insert_ne. congruence.
Qed.

Lemma develop_alloc (h : @Heap Pixels) (p : Pixels) (xs : list Pending) :
  Forall is_Some (develop h <$> xs) →
  develop (h ++ [p]) <$> xs = develop h <$> xs.
Proof.
  intros Hv. apply Forall_fmap_ext.
  rewrite Forall_fmap in Hv. eapply Forall_impl; [exact Hv|].
  intros [m g]. unfold develop. simpl. intros Hs.
  rewrite data_alloc; [done|]. by apply fmap_is_Some in Hs.
Qed.

Lemma develop_insert (h : @Heap Pixels) (b : nat) (p : Pixels)
    (xs : list Pending) :
  Some b ∉ fst <$> xs →
  develop (<[b := p]> h) <$> xs = develop h <$> xs.
Proof.
  intros Hb. apply Forall_fmap_ext, Forall_forall. intros [m g] Hx.
  unfold develop. simpl. rewrite data_insert_ne; [done|].
  intros ->. apply Hb. apply (list_elem_of_fmap_2 fst) in Hx. done.
Qed.

Lemma develop_valid_fresh (h : @Heap Pixels) (xs : list Pending) :
  Forall is_Some (develop h <$> xs) → Some (length h) ∉ fst <$> xs.
Proof.
  rewrite Forall_fmap, Forall_forall. intros Hv Hin.
  apply list_elem_of_fmap in Hin as ([m g] & Hm & Hx). simpl in Hm. subst m.
  apply Hv in Hx. unfold develop in Hx. simpl in Hx.
  apply fmap_is_Some in Hx. rewrite lookup_ge_None_2 in Hx; [|lia].
  by destruct Hx.
Qed.

Lemma elem_of_omap_id (b : nat) (ms : list Mat) :
  b ∈ omap id ms ↔ Some b ∈ ms.
Proof.
  rewrite list_elem_of_omap. split.
  - intros (m & Hm & Hb). simpl in Hb. by subst m.
  - intros Hb. by exists (Some b).
Qed.

Lemma all_Some_fmap {A B : Type} (f : A → B) (l : list A) :
  Forall is_Some (Some ∘ f <$> l).
Proof. rewrite Forall_fmap. apply Forall_true. intros x. by eexists. Qed.

Lemma NoDup_omap_mid (X Y : list Mat) (n : nat) :
  NoDup (omap id (X ++ Some n :: Y)) → (Some n ∉ X) ∧ (Some n ∉ Y).
Proof.
  rewrite omap_app. simpl. rewrite NoDup_app, NoDup_cons.
  intros (_ & Hx & Hn & _). rewrite <- !elem_of_omap_id. split; [|done].
  intros Hin. apply (Hx n Hin). left.
Qed.

Lemma NoDup_omap_last (X : list Mat) (n : nat) :
  NoDup (omap id (X ++ [Some n])) → Some n ∉ X.
Proof. intros H. by apply NoDup_omap_mid in H as [? _]. Qed.

Lemma NoDup_omap_init (X : list Mat) (m : Mat) :
  NoDup (omap id (X ++ [m])) → NoDup (omap id X).
Proof. rewrite omap_app, NoDup_app. by intros (? & _). Qed.

Lemma NoDup_omap_snoc (X : list Mat) (n : nat) :
  NoDup (omap id X) → Some n ∉ X → NoDup (omap id (X ++ [Some n])).
Proof.
  intros HX Hn. rewrite omap_app. simpl. rewrite NoDup_app.
  split_and!; [done| |apply NoDup_singleton].
  intros x Hx ->%list_elem_of_singleton. by apply elem_of_omap_id in Hx.
Qed.

Lemma NoDup_omap_snoc_None (X : list Mat) :
  NoDup (omap id X) → NoDup (omap id (X ++ [None])).
Proof. intros HX. rewrite omap_app. simpl. by rewrite app_nil_r. Qed.

Lemma NoDup_omap_insert (X : list Mat) (n : nat) (m : Mat) :
  NoDup (omap id (X ++ [m])) → Some n ∉ X → m ≠ Some n →
  NoDup (omap id (X ++ [Some n; m])).
Proof.
  intros HX Hn Hm. rewrite omap_app in *.
  change (omap id [Some n; m]) with (n :: omap id [m]).
  rewrite <- Permutation_middle. apply NoDup_cons. split; [|done].
  rewrite elem_of_app, !elem_of_omap_id.
  intros [?|Hin]; [done|]. apply list_elem_of_singleton in Hin. congruence.
Qed.

Lemma NoDup_omap_tail (X : list Mat) (m : Mat) :
  NoDup (omap id (m :: X)) → NoDup (omap id X).
Proof. destruct m; simpl; [|done]. by intros [_ ?]%NoDup_cons. Qed.

(** *** The frames in flight *)

Ltac fold_items Its :=
  match goal with
  | H : context [items ?a ?b ?s] |- _ => set (Its := items a b s) in *
  end.

Lemma content_ok_capture fs (s : State) g l :
  reading_ok s → content_ok fs s →
  capture_step (shared s) (capture s) = Some (g, l) →
  content_ok fs {| shared := g; m_pc := m_pc s; capture := l;
                   processing := processing s; writing := writing s |}.
Proof.
  intros HR [HC HN] H. destruct_state s.
  unfold content_ok, contents, reading_ok in *. simpl in *.
  fold_items Its.
  assert (Hall := all_Some_fmap annotate fs). rewrite <- HC in Hall.
  rewrite !Forall_app in Hall. destruct Hall as (_ & HIts & Hc).
  unfold capture_step in H. simpl in H. destruct cpc; simplify_eq.
  - (* cap.read *)
    unfold VideoCapture_read in H. rewrite HR in H.
    unfold c_contents in *; simpl in *.
    destruct (stream v) as [|[p|] rest] eqn:Hst; simpl in *.
    + simplify_eq. simpl.
      change (items _ _ _) with Its. split; [done|].
      apply NoDup_omap_snoc_None. by apply NoDup_omap_init in HN.
    + destruct cfr as [b|]; [destruct (h !! b) eqn:Hb|];
        simplify_eq; simpl; change (items _ _ _) with Its.
      * apply NoDup_omap_last in HN as Hb'.
        rewrite develop_insert, list_lookup_insert_eq by
          (done || by eapply lookup_lt_Some).
        done.
      * rewrite develop_alloc, list_lookup_middle by done.
        split; [done|]. apply NoDup_omap_snoc.
        -- by apply NoDup_omap_init in HN.
        -- by apply develop_valid_fresh.
      * rewrite develop_alloc, list_lookup_middle by done.
        split; [done|]. apply NoDup_omap_snoc.
        -- by apply NoDup_omap_init in HN.
        -- by apply develop_valid_fresh.
    + simplify_eq. simpl.
      change (items _ _ _) with Its. split; [done|].
      apply NoDup_omap_snoc_None. by apply NoDup_omap_init in HN.
  - (* frameQueue.enqueue(frame.clone()) *)
    unfold clone, c_contents in *. simpl in *.
    apply Forall_cons in Hc as [Hcfr _]. apply fmap_is_Some in Hcfr.
    destruct Hcfr as [p Hp]. rewrite Hp in *. simplify_eq. simpl.
    match goal with
    | |- context [items _ _ ?s'] =>
        replace (items _ _ s') with (Its ++ [(Some (length h), annotate)])
    end.
    2: { unfold Its, items. simpl. rewrite fmap_app, !app_assoc. done. }
    rewrite fmap_app, develop_alloc by done. simpl.
    unfold develop at 2. simpl. rewrite list_lookup_middle by done. simpl.
    rewrite <- !app_assoc. simpl. split; [done|].
    rewrite fmap_app, <- app_assoc. simpl.
    apply NoDup_omap_insert; [done|by apply develop_valid_fresh|].
    intros ->. rewrite data_fresh in Hp. done.
  - (* frameCount++ *)
    unfold c_contents in *. simpl in *. change (items _ _ _) with Its. done.
  - (* frameQueue.setFinished() *)
    unfold c_contents in *. simpl in *. change (items _ _ _) with Its. done.
Qed.

Lemma c_contents_insert (h : Heap) (b : nat) (p : Pixels) v
    (l : CaptureLocals) :
  c_frame l ≠ Some b →
  c_contents detect drawBoundingBox (<[b := p]> h) v l
  = c_contents detect drawBoundingBox h v l.
Proof.
  intros Hne. unfold c_contents. destruct (c_pc l); try done.
  by rewrite data_insert_ne.
Qed.

Lemma content_ok_processing fs (s : State) g l :
  content_ok fs s →
  processing_step detect drawBoundingBox (shared s) (processing s)
    = Some (g, l) →
  content_ok fs {| shared := g; m_pc := m_pc s; capture := capture s;
                   processing := l; writing := writing s |}.
Proof.
  intros [HC HN] H. destruct_state s.
  unfold content_ok, contents, items in *. simpl in *.
  set (W := w_items _) in *.
  set (B := (λ x : Z * Mat, (x.2, id)) <$> qB) in *.
  set (C := c_contents _ _ h v _) in *.
  unfold processing_step, suspended, dequeue, post_incr in H. simpl in H.
  destruct ppc; simplify_eq.
  - (* frameQueue.dequeue(frame) *)
    case_bool_decide; [done|].
    destruct qA as [|t rest]; [destruct fA|]; simplify_eq; simpl; done.
  - (* detector.detect(frame) *)
    unfold p_items in *. simpl in *.
    destruct (data h pfr) as [p|] eqn:Hp; simplify_eq. simpl.
    rewrite !fmap_app in *. simpl in *. unfold develop at 3. simpl.
    unfold develop at 3 in HC. simpl in HC. rewrite Hp in *. done.
  - (* detector.drawBoundingBox(frame, results) *)
    unfold p_items in *. simpl in *.
    destruct pfr as [b|]; [|done]. simpl in H.
    destruct (h !! b) as [p|] eqn:Hp; simplify_eq. simpl.
    rewrite !fmap_app in *. simpl in *.
    assert (HN' := HN). rewrite <- !app_assoc in HN'. simpl in HN'.
    rewrite app_assoc in HN'. apply NoDup_omap_mid in HN' as [HX HY].
    rewrite not_elem_of_app in HX, HY.
    destruct HX as [HW HB]. destruct HY as [HA Hc].
    rewrite !develop_insert by done.
    unfold develop at 3. simpl. rewrite list_lookup_insert_eq by
      (by eapply lookup_lt_Some).
    unfold develop at 3 in HC. simpl in HC. rewrite Hp in HC. simpl in *.
    rewrite c_contents_insert; [done|]. simpl.
    intros ->. apply Hc. left.
  - (* processedQueue.enqueue(std::make_pair(frameIndex++, frame)) *)
    unfold p_items in *. simpl in *.
    rewrite !fmap_app, <- !app_assoc in *. simpl in *. done.
  - (* processedQueue.setFinished() *)
    done.
Qed.

Lemma content_ok_writing fs (s : State) g l :
  content_ok fs s →
  writing_step (shared s) (writing s) = Some (g, l) →
  content_ok fs {| shared := g; m_pc := m_pc s; capture := capture s;
                   processing := processing s; writing := l |}.
Proof.
  intros [HC HN] H. destruct_state s.
  unfold content_ok, contents, items in *. simpl in *.
  set (Pp := p_items _ _ _) in *.
  set (A := (λ m : Mat, (m, annotate)) <$> qA) in *.
  set (C := c_contents _ _ h v _) in *.
  unfold writing_step, suspended, dequeue in H. simpl in H.
  destruct wpc; simplify_eq.
  - (* processedQueue.dequeue(processedFrame) *)
    case_bool_decide; [done|].
    destruct qB as [|t rest]; [destruct fB|]; simplify_eq; simpl; done.
  - (* out.write(processedFrame.second) *)
    unfold w_items in *. simpl in *.
    destruct (data h wfr.2) as [p|] eqn:Hp; simplify_eq. simpl.
    unfold develop at 1 in HC. simpl in HC. rewrite Hp in HC. simpl in HC.
    rewrite fmap_app, <- app_assoc. simpl. split; [done|].
    by apply NoDup_omap_tail in HN.
Qed.

Lemma content_ok_step fs (a : Action) (s s' : State) :
  phase_ok s → reading_ok s → content_ok fs s → step a s = Some s' →
  content_ok fs s'.
Proof.
  intros HP HR HC H. destruct a as [[]|[]]; simpl in H; try done.
  - (* main *)
    destruct_state s. destruct HC as [HC HN].
    unfold main_step, phase_ok in *. simpl in *.
    destruct mpc; repeat case_match; destruct_and?; simplify_eq; done.
  - destruct (capture_step _ _) as [[g l]|] eqn:Hs; simpl in H; simplify_eq.
    by eapply content_ok_capture.
  - destruct (processing_step _ _ _ _) as [[g l]|] eqn:Hs; simpl in H; simplify_eq.
    by eapply content_ok_processing.
  - destruct (writing_step _ _) as [[g l]|] eqn:Hs; simpl in H; simplify_eq.
    by eapply content_ok_writing.
  - case_match; simplify_eq. destruct_state s. done.
  - case_match; simplify_eq. destruct_state s. done.
Qed.

Lemma index_ok_step (a : Action) (s s' : State) :
  phase_ok s → index_ok s → step a s = Some s' → index_ok s'.
Proof.
  intros HP HI H. step_pre H.
  all: unfold index_ok, w_items, phase_ok in *; simpl in *.
  all: step_go H; destruct_and?; simplify_eq; simpl in *.
  all: rewrite ?indices_snoc, ?length_app; simpl; rewrite ?length_app;
    simpl; try lia.
  all: destruct wpc; simpl in *; lia.
Qed.

(** *** The invariant *)

Lemma invariant_init cap0 oo : invariant cap0 oo (init cap0 oo).
Proof.
  unfold invariant, phase_ok, setup_ok, sync_ok, waits_ok, trace_ok,
    content_ok, contents, items, count, index_ok. simpl.
  split_and!; try done; try (by left); try lia; try apply NoDup_nil_2.
  by exists 0%nat.
Qed.

Lemma invariant_step cap0 oo (a : Action) (s s' : State) :
  invariant cap0 oo s → step a s = Some s' → invariant cap0 oo s'.
Proof.
  intros (HP & HS & HY & HT & HC & HI) H.
  assert (HR := reading_ok_intro _ _ _ HP HS).
  split_and!;
    eauto using phase_ok_step, setup_ok_step, sync_ok_step, trace_ok_step,
      content_ok_step, index_ok_step.
Qed.

Lemma invariant_reachable cap0 oo (s : State) :
  reachable (init cap0 oo) s → invariant cap0 oo s.
Proof.
  apply reachable_invariant; [apply invariant_init|].
  intros a s1 s2. apply invariant_step.
Qed.

(** *** Every transition of a thread brings the end nearer *)

Lemma awake_le_1 {T : Type} (me : Thread) (s : SafeQueue T) :
  (awake me s ≤ 1)%nat.
Proof. unfold awake. destruct (suspended me s); lia. Qed.

Lemma measure_run (t : Thread) (s s' : State) :
  phase_ok s → step (run t) s = Some s' → (measure s' < measure s)%nat.
Proof.
  intros HP H. destruct_state s. destruct t; simpl in H.
  all: unfold phase_ok in HP; simpl in HP.
  all: step_go H; destruct_and?; simplify_eq.
  all: unfold measure, awake, suspended; simpl.
  all: try match goal with E : stream _ = _ |- _ => rewrite !E end.
  all: rewrite ?length_app; simpl.
  all: repeat case_bool_decide; try lia; try contradiction.
  all: try (exfalso;
            match goal with
            | E : ¬ (_ ∈ _ ++ [_]) |- _ =>
                apply E; apply elem_of_app; right; left
            end).
  all: try (destruct ppc; simpl in *; lia).
  all: try (destruct wpc; simpl in *; lia).
  all: try (destruct ppc; destruct wpc; simpl in *; lia).
Qed.

Lemma measure_spurious (t : Thread) (s s' : State) :
  step (spurious t) s = Some s' → (measure s' ≤ measure s + 1)%nat.
Proof.
  intros H. destruct_state s. destruct t; simpl in H; try done.
  all: case_match; simplify_eq.
  all: unfold measure; simpl.
  - pose proof (awake_le_1 processingThread
      (spurious_wakeup processingThread
         {| q := qA; c := cA; finished := fA |})).
    destruct ppc; simpl; lia.
  - pose proof (awake_le_1 writingThread
      (spurious_wakeup writingThread
         {| q := qB; c := cB; finished := fB |})).
    destruct wpc; simpl; lia.
Qed.

(** The length of a run is bounded by what the threads had to do at its
    start, with two more transitions for every spurious wake-up. *)
Lemma measure_exec (sched : list Action) (s s' : State) :
  phase_ok s → exec sched s = Some s' →
  (length sched + measure s'
   ≤ measure s + 2 * length (List.filter (negb ∘ is_run) sched))%nat.
Proof.
  revert s. induction sched as [|a sched IH]; intros s HP H; simpl in H.
  - simplify_eq. simpl. lia.
  - destruct (step a s) as [s1|] eqn:Ha; simpl in H; [|done].
    specialize (IH s1 (phase_ok_step _ _ _ HP Ha) H).
    destruct a as [t|t]; simpl.
    + apply measure_run in Ha; [|done]. lia.
    + apply measure_spurious in Ha. lia.
Qed.

(** *** No run gets stuck before [main] returns *)

Lemma content_ok_valid fs (s : State) :
  content_ok fs s →
  Forall is_Some (develop (heap (shared s)) <$> items detect drawBoundingBox s).
Proof.
  intros [HC _]. assert (Hall := all_Some_fmap annotate fs).
  rewrite <- HC in Hall. unfold contents in Hall.
  rewrite !Forall_app in Hall. by destruct Hall as (_ & ? & _).
Qed.

Lemma progress cap0 oo (s : State) :
  invariant cap0 oo s → exit_status s = None →
  ∃ t s', step (run t) s = Some s'.
Proof.
  intros (HP & HS & HY & HT & HC & _) Hex.
  apply content_ok_valid in HC.
  destruct_state s.
  unfold phase_ok, sync_ok, waits_ok, exit_status, items in *. simpl in *.
  destruct HY as (HfA & HfB & HwA & HwB & HpA & HwB').
  destruct mpc; try done.
  1-5, 9: by exists mainThread; eexists.
  - (* captureThread.join() *)
    destruct HP as (Hc & _).
    destruct cpc; try done.
    5: by exists mainThread; eexists.
    all: exists captureThread; unfold step, capture_step; simpl.
    all: repeat case_match; by eexists.
  - (* processingThread.join() *)
    destruct HP as (-> & Hp & _). subst fA.
    destruct HwA as [->|(_ & _ & _ & ?)]; [|done].
    destruct ppc; try done.
    6: by exists mainThread; eexists.
    all: exists processingThread.
    all: unfold step, processing_step, suspended, dequeue, post_incr,
           p_items in *; simpl in *.
    all: rewrite ?fmap_app, ?fmap_cons, ?Forall_app, ?Forall_cons in HC;
      destruct_and?.
    all: repeat match goal with
           | E : is_Some (develop _ _) |- _ =>
               apply fmap_is_Some in E; simpl in E; destruct E as [? E]
           end.
    + destruct qA; by eexists.
    + match goal with E : data _ _ = Some _ |- _ => rewrite E end.
      by eexists.
    + destruct pfr as [b|]; [|done]. simpl in *.
      match goal with E : _ !! _ = Some _ |- _ => rewrite E end.
      by eexists.
    + by eexists.
    + by eexists.
  - (* writingThread.join() *)
    destruct HP as (-> & -> & Hw). subst fB.
    destruct HwB as [->|(_ & _ & _ & ?)]; [|done].
    destruct wpc; try done.
    3: by exists mainThread; eexists.
    all: exists writingThread.
    all: unfold step, writing_step, suspended, dequeue, w_items in *;
           simpl in *.
    all: rewrite ?fmap_app, ?fmap_cons, ?Forall_app, ?Forall_cons in HC;
      destruct_and?.
    all: repeat match goal with
           | E : is_Some (develop _ _) |- _ =>
               apply fmap_is_Some in E; simpl in E; destruct E as [? E]
           end.
    + destruct qB; by eexists.
    + match goal with E : data _ _ = Some _ |- _ => rewrite E end.
      by eexists.
Qed.

(** Every run can be continued until [main] has returned, by transitions
    of the threads alone, and in no more transitions than the measure of
    the state allows. *)
Lemma completion cap0 oo (n : nat) (s : State) :
  invariant cap0 oo s → (measure s ≤ n)%nat →
  ∃ sched s',
    exec sched s = Some s' ∧ is_Some (exit_status s')
    ∧ forallb is_run sched = true ∧ (length sched ≤ n)%nat.
Proof.
  revert s. induction n as [|n IH]; intros s Hinv Hm.
  - destruct (exit_status s) eqn:Hex.
    + exists [], s. by split_and!.
    + destruct (progress _ _ _ Hinv Hex) as (t & s1 & Hs).
      apply measure_run in Hs; [lia|apply Hinv].
  - destruct (exit_status s) eqn:Hex.
    + exists [], s. split_and!; [done|by rewrite Hex|done|simpl; lia].
    + destruct (progress _ _ _ Hinv Hex) as (t & s1 & Hs).
      destruct (IH s1) as (sched & s2 & He & Hx & Hr & Hl).
      * by eapply invariant_step.
      * apply measure_run in Hs; [lia|apply Hinv].
      * exists (run t :: sched), s2. split_and!; [|done|done|simpl; lia].
        change (step (run t) s ≫= exec sched = Some s2).
        by rewrite Hs.
Qed.

(** *** What a run has done when [main] returns *)

Lemma written_prefix cap0 oo (s : State) :
  invariant cap0 oo s →
  written (out (shared s)) `prefix_of` (annotate <$> yielded (stream cap0)).
Proof.
  intros (_ & _ & _ & _ & [HC _] & _). unfold contents in HC.
  rewrite list_fmap_compose in HC. symmetry in HC.
  apply fmap_app_inv in HC as (l1 & l2 & H1 & _ & ->).
  apply (inj (fmap Some)) in H1. subst l1. by exists l2.
Qed.

Lemma exit_status_cases cap0 oo (s : State) (st : Z) :
  invariant cap0 oo s → exit_status s = Some st →
  (st = 0 ∧ cap_isOpened cap0 = true ∧ oo = true)
  ∨ (st = -1 ∧ (cap_isOpened cap0 = false ∨ oo = false)).
Proof.
  intros (HP & HS & _) Hex. destruct_state s.
  unfold exit_status, phase_ok, setup_ok in *. simpl in *.
  destruct mpc; simplify_eq. case_decide.
  - right. by destruct HS.
  - left. by destruct HP as [(-> & _)|(-> & _)].
Qed.

Lemma returned_0 cap0 oo (s : State) :
  invariant cap0 oo s → exit_status s = Some 0 →
  c_pc (capture s) = C_done ∧ p_pc (processing s) = P_done
  ∧ w_pc (writing s) = W_done
  ∧ finished (frameQueue (shared s)) = true
  ∧ finished (processedQueue (shared s)) = true
  ∧ q (frameQueue (shared s)) = [] ∧ q (processedQueue (shared s)) = []
  ∧ written (out (shared s)) = (annotate <$> yielded (stream cap0))
  ∧ length (indices (trace (shared s))) = length (yielded (stream cap0)).
Proof.
  intros (HP & HS & HY & HT & [HC _] & HI) Hex. destruct_state s.
  unfold exit_status, phase_ok, sync_ok, contents, items, index_ok in *.
  simpl in *. destruct mpc; simplify_eq.
  destruct HP as [(_ & -> & -> & ->)|(? & _)]; [|done].
  destruct HY as (-> & -> & _ & _ & (_ & ->) & (_ & ->)).
  simpl in *. rewrite app_nil_r, list_fmap_compose in HC.
  apply (inj (fmap Some)) in HC.
  split_and!; try done. rewrite HI, HC, length_fmap. lia.
Qed.

Lemma open_failure_states cap0 oo (s : State) :
  invariant cap0 oo s → cap_isOpened cap0 = false ∨ oo = false →
  s = init cap0 oo
  ∨ (s = set_m_pc M_open_out (init cap0 oo) ∧ cap_isOpened cap0 = true)
  ∨ s = set_m_pc (M_returned (-1)) (init cap0 oo).
Proof.
  intros (HP & HS & _) Hf. destruct_state s.
  unfold phase_ok, setup_ok in *. simpl in *.
  destruct mpc; try case_decide; destruct_and?; simplify_eq; eauto;
    try (destruct Hf; congruence).
Qed.

(** *** Read errors and the unread part of the stream *)

Lemma yielded_frames (fs : list Pixels) : yielded (Frame <$> fs) = fs.
Proof. induction fs as [|p fs IH]; simpl; [done|f_equal; apply IH]. Qed.

Lemma yielded_list_fmap (fs : list Pixels) :
  yielded (list_fmap Pixels ReadResult Frame fs) = fs.
Proof. apply yielded_frames. Qed.

Lemma yielded_read_error (fs : list Pixels) (rest : list ReadResult) :
  yielded ((Frame <$> fs) ++ ReadError :: rest) = fs.
Proof. induction fs as [|p fs IH]; simpl; [done|f_equal; apply IH]. Qed.

(** No transition depends on the unread part of the stream. *)
Lemma step_forget_unread (a : Action) (s : State) :
  phase_ok s →
  forget_unread <$> step a (forget_unread s) = forget_unread <$> step a s.
Proof.
  intros HP. destruct_state s. destruct a as [[]|[]]; try done.
  all: unfold step, main_step, capture_step, processing_step, writing_step,
         forget_unread, readable, VideoCapture_read, clone, suspended,
         dequeue, post_incr, phase_ok in *; simpl in *.
  - (* main *)
    destruct mpc; simpl; try done; destruct_and?; simplify_eq;
      repeat case_match; simpl; rewrite ?yielded_frames; done.
  - (* capture *)
    destruct cpc; simpl; rewrite ?yielded_frames; try done.
    + destruct v as [op st]. simpl. destruct op; simpl; [|done].
      destruct st as [|[p|] rest]; simpl; try done.
      destruct cfr as [b|]; simpl; [destruct (h !! b)|]; simpl;
        rewrite ?yielded_frames, ?yielded_list_fmap; done.
    + destruct (data h cfr); simpl; rewrite ?yielded_frames; done.
  - (* processing *)
    destruct ppc; simpl; try done.
    all: repeat case_match; simpl; rewrite ?yielded_frames; done.
  - (* writing *)
    destruct wpc; simpl; try done.
    all: repeat case_match; simpl; rewrite ?yielded_frames; done.
  - repeat case_match; simpl; rewrite ?yielded_frames; done.
  - repeat case_match; simpl; rewrite ?yielded_frames; done.
Qed.

Lemma forget_unread_idemp (s : State) :
  forget_unread (forget_unread s) = forget_unread s.
Proof.
  destruct_state s. unfold forget_unread, readable. simpl.
  destruct cpc; simpl; rewrite ?yielded_frames; done.
Qed.

Lemma exec_forget_unread (sched : list Action) (s : State) :
  phase_ok s →
  forget_unread <$> exec sched (forget_unread s)
  = forget_unread <$> exec sched s.
Proof.
  revert s. induction sched as [|a sched IH]; intros s HP; simpl.
  - by rewrite forget_unread_idemp.
  - pose proof (step_forget_unread a s HP) as Ha.
    destruct (step a s) as [s1|] eqn:H1,
      (step a (forget_unread s)) as [s2|] eqn:H2;
      simpl in *; try done.
    apply (inj Some) in Ha.
    assert (phase_ok s1) by (by eapply phase_ok_step).
    assert (phase_ok s2).
    { eapply phase_ok_step; [|exact H2]. by destruct_state s. }
    rewrite <- (IH s1), <- (IH s2) by done. by rewrite Ha.
Qed.

(** No transition reads or writes [processingDone]. *)
Lemma step_with_processingDone (b : bool) (a : Action) (s : State) :
  step a (with_processingDone b s) = with_processingDone b <$> step a s.
Proof.
  destruct_state s. destruct a as [[]|[]]; try done.
  - unfold step, main_step, with_processingDone. simpl.
    destruct mpc; simpl; try done; repeat case_match; simpl; try done.
  - unfold step, capture_step, with_processingDone, VideoCapture_read,
      clone. simpl.
    destruct cpc; simpl; try done; repeat case_match; simpl; done.
  - unfold step, processing_step, with_processingDone, suspended,
      dequeue, post_incr. simpl.
    destruct ppc; simpl; try done; repeat case_match; simpl; done.
  - unfold step, writing_step, with_processingDone, suspended,
      dequeue. simpl.
    destruct wpc; simpl; try done; repeat case_match; simpl; done.
  - unfold step, with_processingDone, suspended. simpl.
    case_bool_decide; simpl; done.
  - unfold step, with_processingDone, suspended. simpl.
    case_bool_decide; simpl; done.
Qed.

Lemma processingDone_step (a : Action) (s s' : State) :
  step a s = Some s' →
  processingDone (shared s') = processingDone (shared s).
Proof. intros H. step_cases H; done. Qed.

(** *** Runs from the initial state *)

Lemma exec_invariant_init cap0 oo (sched : list Action) (s : State) :
  exec sched (init cap0 oo) = Some s → invariant cap0 oo s.
Proof. intros H. apply invariant_reachable. by exists sched. Qed.

Lemma measure_init cap0 oo :
  measure (init cap0 oo) = (11 * length (yielded (stream cap0)) + 17)%nat.
Proof. unfold measure, init. simpl. lia. Qed.

Lemma run_to_exit cap0 oo :
  ∃ sched s,
    exec sched (init cap0 oo) = Some s ∧ is_Some (exit_status s).
Proof.
  destruct (completion cap0 oo _ (init cap0 oo) (invariant_init _ _)
              (Nat.le_refl _)) as (sched & s & He & Hx & _).
  by exists sched, s.
Qed.

Lemma indices_at_exit cap0 oo (sched : list Action) (s : State) :
  exec sched (init cap0 oo) = Some s → exit_status s = Some 0 →
  indices (trace (shared s))
  = (λ k, wrap_int (Z.of_nat k)) <$> seq 0 (length (yielded (stream cap0))).
Proof.
  intros He Hx. apply exec_invariant_init in He as Hinv.
  destruct (returned_0 _ _ _ Hinv Hx) as (_ & _ & _ & _ & _ & _ & _ & _ & Hn).
  destruct Hinv as (_ & _ & _ & ((n & Hi & _) & _) & _).
  rewrite Hi in Hn. rewrite length_fmap, length_seq in Hn. by subst n.
Qed.

Lemma yielded_replicate (n : nat) (p : Pixels) :
  yielded (replicate n (Frame p)) = replicate n p.
Proof. induction n as [|n IH]; simpl; [done|by rewrite IH]. Qed.

Lemma processingDone_exec cap0 oo (sched : list Action) (s : State) :
  exec sched (init cap0 oo) = Some s → processingDone (shared s) = false.
Proof.
  apply (exec_invariant (λ s, processingDone (shared s) = false)); [|done].
  intros a s1 s2 H1 Ha. by rewrite (processingDone_step _ _ _ Ha).
Qed.

(** *** The claims on the pipeline *)

(** C1: in every run in which the source and the sink open, the frames
    written are at any time the first frames of the stream, annotated, in
    the order of the stream; when [main] has returned, it has returned 0
    and the sink has received exactly one write per frame that the
    source yielded, the [i]-th write being the annotated [i]-th frame,
    after [N + 1] calls of [cap.read] of which the last one failed.
    Every run can be continued until [main] returns, and no run is longer
    than [11 N + 17] transitions, spurious wake-ups apart. *)
Theorem frames_written_in_order (cap0 : VideoCapture)
    (sched : list Action) (s : State) :
  cap_isOpened cap0 = true →
  exec sched (init cap0 true) = Some s →
  written (out (shared s)) `prefix_of` (annotate <$> yielded (stream cap0))
  ∧ (is_Some (exit_status s) →
     exit_status s = Some 0
     ∧ written (out (shared s)) = (annotate <$> yielded (stream cap0))
     ∧ length (written (out (shared s))) = length (yielded (stream cap0))
     ∧ (∀ (i : nat) (p : Pixels),
          yielded (stream cap0) !! i = Some p →
          written (out (shared s)) !! i = Some (annotate p))
     ∧ count is_read (trace (shared s))
       = S (length (yielded (stream cap0)))
     ∧ count is_failed_read (trace (shared s)) = 1%nat)
  ∧ (∃ sched' s',
       exec sched' s = Some s' ∧ is_Some (exit_status s')
       ∧ forallb is_run sched' = true)
  ∧ (length sched
     ≤ 11 * length (yielded (stream cap0)) + 17
       + 2 * length (List.filter (negb ∘ is_run) sched))%nat.
Proof.
  intros Hop He. apply exec_invariant_init in He as Hinv.
  split_and!.
  - by eapply written_prefix.
  - intros [st Hx].
    destruct (exit_status_cases _ _ _ _ Hinv Hx) as [(-> & _)|(_ & [?|?])];
      [|congruence..].
    destruct (returned_0 _ _ _ Hinv Hx)
      as (Hc & _ & _ & _ & _ & _ & _ & Hw & _).
    destruct Hinv as (_ & _ & _ & (_ & _ & _ & Hfail & Hreads) & _).
    rewrite Hc in Hfail, Hreads.
    split_and!; [done|done|by rewrite Hw, length_fmap| |lia|done].
    intros i p Hi. by rewrite Hw, list_lookup_fmap, Hi.
  - destruct (completion _ _ _ s Hinv (Nat.le_refl _))
      as (sched' & s' & ? & ? & ? & _).
    by exists sched', s'.
  - pose proof (measure_exec sched _ _
      (proj1 (invariant_init cap0 true)) He) as Hm.
    rewrite measure_init in Hm. lia.
Qed.

(** C3, as the code has it: in every run, whatever the stream and the
    interleaving, the pair that [processedQueue.enqueue] receives after
    [k] earlier ones carries the index [k] reduced to a 32-bit [int],
    which is [k] itself for the first [2^31] pairs. *)
Theorem frame_indices_count_up (cap0 : VideoCapture) (oo : bool)
    (sched : list Action) (s : State) (k : nat) (i : Z) :
  exec sched (init cap0 oo) = Some s →
  indices (trace (shared s)) !! k = Some i →
  i = wrap_int (Z.of_nat k) ∧ (Z.of_nat k < 2 ^ 31 → i = Z.of_nat k).
Proof.
  intros He Hk. apply exec_invariant_init in He as Hinv.
  destruct Hinv as (_ & _ & _ & ((n & Hi & _) & _) & _).
  rewrite Hi, list_lookup_fmap in Hk.
  destruct (seq 0 n !! k) as [k'|] eqn:Hs; simplify_eq.
  apply lookup_seq in Hs as [-> _]. simpl in Hk.
  change (0 + k)%nat with k in Hk. simplify_eq. split; [done|].
  intros Hlt. apply wrap_int_small. lia.
Qed.

(** C4: when the source or the sink cannot be opened, no thread is ever
    started, nothing is read and nothing is written, only [main] runs,
    and it returns -1, after at most two transitions. *)
Theorem open_failure_exits_before_start (cap0 : VideoCapture) (oo : bool)
    (sched : list Action) (s : State) :
  cap_isOpened cap0 = false ∨ oo = false →
  exec sched (init cap0 oo) = Some s →
  (c_pc (capture s) = C_unstarted ∧ p_pc (processing s) = P_unstarted
   ∧ w_pc (writing s) = W_unstarted)
  ∧ trace (shared s) = []
  ∧ count is_read (trace (shared s)) = 0%nat
  ∧ written (out (shared s)) = []
  ∧ (∀ st, exit_status s = Some st → st = -1 ∧ st ≠ 0)
  ∧ (∀ a s', step a s = Some s' → a = run mainThread)
  ∧ (∃ sched' s',
       exec sched' s = Some s' ∧ exit_status s' = Some (-1)
       ∧ (length sched' ≤ 2)%nat).
Proof.
  intros Hf He. apply exec_invariant_init in He as Hinv.
  destruct (open_failure_states _ _ _ Hinv Hf) as [->|[[-> Hop]| ->]].
  - split_and!; try done.
    + intros a s' Ha. by destruct a as [[]|[]].
    + destruct (cap_isOpened cap0) eqn:Hc.
      * destruct Hf as [?| ->]; [done|].
        exists [run mainThread; run mainThread]. eexists.
        simpl. unfold main_step. simpl. rewrite Hc. simpl. split_and!; done.
      * exists [run mainThread]. eexists.
        simpl. unfold main_step. simpl. rewrite Hc. simpl.
        split_and!; [done|done|lia].
  - destruct Hf as [?| ->]; [congruence|].
    split_and!; try done.
    + intros a s' Ha. by destruct a as [[]|[]].
    + exists [run mainThread]. eexists. simpl. split_and!; [done|done|lia].
  - split_and!; try done.
    + intros st [= <-]. done.
    + intros a s' Ha. by destruct a as [[]|[]].
    + exists [], (set_m_pc (M_returned (-1)) (init cap0 oo)).
      simpl. split_and!; [done|done|lia].
Qed.

(** C7: a stream that breaks off with a read error after some frames
    and the stream that ends after the same frames give the same runs:
    under every schedule the two runs go through states that differ in
    nothing but the part of the stream that is never read, so in the
    same calls, the same output and the same exit status.  The capture
    thread stops at the first failed read (there is exactly one once it
    has left its loop) and has called [frameQueue.setFinished] exactly
    once when it is done, and never before; the run can be continued
    until [main] returns. *)
Theorem read_error_like_exhaustion (opened oo : bool) (fs : list Pixels)
    (rest : list ReadResult) (sched : list Action) :
  forget_unread
    <$> exec sched
          (init {| cap_isOpened := opened;
                   stream := (Frame <$> fs) ++ ReadError :: rest |} oo)
  = forget_unread
      <$> exec sched
            (init {| cap_isOpened := opened; stream := Frame <$> fs |} oo)
  ∧ ∀ s : State,
      exec sched
        (init {| cap_isOpened := opened;
                 stream := (Frame <$> fs) ++ ReadError :: rest |} oo)
      = Some s →
      count is_finished_frameQueue (trace (shared s))
      = match c_pc (capture s) with C_done => 1%nat | _ => 0%nat end
      ∧ count is_failed_read (trace (shared s))
        = match c_pc (capture s) with
          | C_setFinished | C_done => 1%nat
          | _ => 0%nat
          end
      ∧ (exit_status s = Some 0 →
         c_pc (capture s) = C_done
         ∧ count is_read (trace (shared s)) = S (length fs)
         ∧ written (out (shared s)) = (annotate <$> fs))
      ∧ (∃ sched' s',
           exec sched' s = Some s' ∧ is_Some (exit_status s')
           ∧ forallb is_run sched' = true).
Proof.
  split.
  - rewrite <- exec_forget_unread by apply invariant_init.
    rewrite <- (exec_forget_unread sched (init {| stream := Frame <$> fs |} oo))
      by apply invariant_init.
    unfold forget_unread, readable, init. simpl.
    by rewrite yielded_read_error, yielded_frames.
  - intros s He. apply exec_invariant_init in He as Hinv.
    pose proof Hinv as (_ & _ & _ & (_ & HcA & _ & Hfail & Hreads) & _).
    simpl in *. rewrite yielded_read_error in *.
    split_and!; [done|done| |].
    + intros Hx.
      destruct (returned_0 _ _ _ Hinv Hx)
        as (Hc & _ & _ & _ & _ & _ & _ & Hw & _).
      simpl in Hw. rewrite yielded_read_error in Hw. rewrite Hc in Hreads.
      split_and!; [done|lia|done].
    + destruct (completion _ _ _ s Hinv (Nat.le_refl _))
        as (sched' & s' & ? & ? & ? & _).
      by exists sched', s'.
Qed.

(** C8, as the code has it: [processingDone] is constructed with
    [false] and no transition of [main] or of a thread writes it or
    reads it: it is [false] all along every run, and a run from a state
    with another value of it makes the same transitions. *)
Theorem processingDone_is_dead (cap0 : VideoCapture) (oo : bool)
    (sched : list Action) (s : State) :
  exec sched (init cap0 oo) = Some s →
  processingDone (shared s) = false
  ∧ ∀ (b : bool) (a : Action),
      step a (with_processingDone b s) = with_processingDone b <$> step a s.
Proof.
  intros He. split; [by eapply processingDone_exec|].
  intros b a. apply step_with_processingDone.
Qed.

(** C9: when the first [cap.read] already fails, nothing is ever
    written; every run can be continued until [main] returns, and takes
    at most 17 transitions, spurious wake-ups apart; when [main] has
    returned it has returned 0, the three threads have run to their end
    and both queues are finished and empty. *)
Theorem empty_stream_terminates (cap0 : VideoCapture)
    (sched : list Action) (s : State) :
  cap_isOpened cap0 = true → yielded (stream cap0) = [] →
  exec sched (init cap0 true) = Some s →
  written (out (shared s)) = []
  ∧ (is_Some (exit_status s) →
     exit_status s = Some 0
     ∧ c_pc (capture s) = C_done ∧ p_pc (processing s) = P_done
     ∧ w_pc (writing s) = W_done
     ∧ finished (frameQueue (shared s)) = true
     ∧ finished (processedQueue (shared s)) = true
     ∧ q (frameQueue (shared s)) = []
     ∧ q (processedQueue (shared s)) = [])
  ∧ (∃ sched' s',
       exec sched' s = Some s' ∧ exit_status s' = Some 0
       ∧ forallb is_run sched' = true
       ∧ (length sched + length sched'
          ≤ 17 + 2 * length (List.filter (negb ∘ is_run) sched))%nat)
  ∧ (length sched
     ≤ 17 + 2 * length (List.filter (negb ∘ is_run) sched))%nat.
Proof.
  intros Hop Hy He. apply exec_invariant_init in He as Hinv.
  pose proof (measure_exec sched _ _
    (proj1 (invariant_init cap0 true)) He) as Hm.
  rewrite measure_init, Hy in Hm. simpl in Hm.
  assert (Hexit : ∀ s1 st, invariant cap0 true s1 →
                    exit_status s1 = Some st → st = 0).
  { intros s1 st H1 Hx.
    destruct (exit_status_cases _ _ _ _ H1 Hx) as [(-> & _)|(_ & [?|?])];
      [done|congruence..]. }
  split_and!.
  - pose proof (written_prefix _ _ _ Hinv) as Hp.
    rewrite Hy in Hp. by apply prefix_nil_inv in Hp.
  - intros [st Hx]. rewrite (Hexit _ _ Hinv Hx) in Hx.
    destruct (returned_0 _ _ _ Hinv Hx)
      as (? & ? & ? & ? & ? & ? & ? & _).
    by split_and!.
  - destruct (completion _ _ _ s Hinv (Nat.le_refl _))
      as (sched' & s' & He' & [st Hx] & Hr & Hl).
    exists sched', s'. split_and!; [done| |done|lia].
    rewrite Hx. f_equal. eapply (Hexit s'); [|done].
    apply invariant_reachable. exists (sched ++ sched').
    rewrite exec_app, He. done.
  - lia.
Qed.

(** *** What holds all along every run *)


Lemma contents_valid fs (s : State) :
  content_ok fs s → Forall is_Some (contents s).
Proof.
  intros [HC _]. rewrite HC. apply all_Some_fmap.
Qed.

Lemma released_step (cap0 : @VideoCapture Pixels) (oo : bool)
    (a : Action) (s s' : State) :
  cap_isOpened (cap (shared s))
  = (if released s then false else cap_isOpened cap0)
  ∧ out_isOpened (out (shared s)) = (if released s then false else oo) →
  step a s = Some s' →
  cap_isOpened (cap (shared s'))
  = (if released s' then false else cap_isOpened cap0)
  ∧ out_isOpened (out (shared s')) = (if released s' then false else oo).
Proof.
  intros [Hc Ho] H. step_pre H; unfold released in *; simpl in *.
  all: step_go H; simpl in *; try done.
  all: repeat case_bool_decide; simplify_eq; try done.
  all: split; congruence.
Qed.

(** X4: no wake-up is lost.  All along every run, a thread is in the wait
    set of a queue only if it is the consumer of that queue, alone there,
    in the loop of [dequeue], and the queue is empty and not finished,
    its producer not being at its end: a consumer never sleeps on an item
    or on the end of the stream. *)
Theorem no_lost_wakeup (cap0 : VideoCapture) (oo : bool)
    (sched : list Action) (s : State) :
  exec sched (init cap0 oo) = Some s →
  (∀ t, t ∈ c (frameQueue (shared s)) →
     c (frameQueue (shared s)) = [processingThread]
     ∧ t = processingThread
     ∧ p_pc (processing s) = P_dequeue
     ∧ q (frameQueue (shared s)) = []
     ∧ finished (frameQueue (shared s)) = false
     ∧ c_pc (capture s) ≠ C_done)
  ∧ (∀ t, t ∈ c (processedQueue (shared s)) →
       c (processedQueue (shared s)) = [writingThread]
       ∧ t = writingThread
       ∧ w_pc (writing s) = W_dequeue
       ∧ q (processedQueue (shared s)) = []
       ∧ finished (processedQueue (shared s)) = false
       ∧ p_pc (processing s) ≠ P_done).
Proof.
  intros He. apply exec_invariant_init in He as (_ & _ & HY & _).
  destruct_state s. unfold sync_ok, waits_ok in HY. simpl in *.
  destruct HY as (HfA & HfB & HwA & HwB & _).
  split; intros t Ht.
  - destruct HwA as [->|(-> & ? & ? & ?)]; [by apply elem_of_nil in Ht|].
    apply list_elem_of_singleton in Ht. subst.
    split_and!; try done. by intros ->.
  - destruct HwB as [->|(-> & ? & ? & ?)]; [by apply elem_of_nil in Ht|].
    apply list_elem_of_singleton in Ht. subst.
    split_and!; try done. by intros ->.
Qed.

(** X5: the end of the stream travels down the pipeline behind the
    frames.  All along every run, [finished] is set on a queue exactly
    when its producer has run to its end; the processing thread has left
    its loop only if the capture thread is at its end and the first
    queue is drained, and the writing thread only if the processing
    thread is at its end and both queues are drained. *)
Theorem stages_finish_in_order (cap0 : VideoCapture) (oo : bool)
    (sched : list Action) (s : State) :
  exec sched (init cap0 oo) = Some s →
  (finished (frameQueue (shared s)) = true ↔ c_pc (capture s) = C_done)
  ∧ (finished (processedQueue (shared s)) = true
     ↔ p_pc (processing s) = P_done)
  ∧ (p_pc (processing s) = P_setFinished ∨ p_pc (processing s) = P_done →
     c_pc (capture s) = C_done ∧ q (frameQueue (shared s)) = [])
  ∧ (w_pc (writing s) = W_done →
     p_pc (processing s) = P_done ∧ c_pc (capture s) = C_done
     ∧ q (frameQueue (shared s)) = []
     ∧ q (processedQueue (shared s)) = []).
Proof.
  intros He. apply exec_invariant_init in He as (_ & _ & HY & _).
  destruct_state s. unfold sync_ok in HY. simpl in *.
  destruct HY as (HfA & HfB & _ & _ & HP & HW). subst fA fB.
  split_and!.
  - by destruct cpc.
  - by destruct ppc.
  - by intros [->| ->].
  - intros ->. destruct HW as [-> ->]. by destruct HP as [-> ->].
Qed.

(** X6: no thread is ever handed an empty [cv::Mat].  All along every
    run, every header in the two queues refers to a buffer, and so does
    the frame the capture thread is about to clone, the frame the
    processing thread is about to pass to [detect], to [drawBoundingBox]
    or to [enqueue], and the frame the writing thread is about to pass to
    [out.write]. *)
Theorem frames_never_empty (cap0 : VideoCapture) (oo : bool)
    (sched : list Action) (s : State) :
  exec sched (init cap0 oo) = Some s →
  Forall (λ m, is_Some (data (heap (shared s)) m)) (q (frameQueue (shared s)))
  ∧ Forall (λ x, is_Some (data (heap (shared s)) (snd x)))
      (q (processedQueue (shared s)))
  ∧ (c_pc (capture s) = C_enqueue →
     is_Some (data (heap (shared s)) (c_frame (capture s))))
  ∧ (p_pc (processing s) ∈ [P_detect; P_draw; P_enqueue] →
     is_Some (data (heap (shared s)) (p_frame (processing s))))
  ∧ (w_pc (writing s) = W_write →
     is_Some (data (heap (shared s)) (snd (processedFrame (writing s))))).
Proof.
  intros He. apply exec_invariant_init in He as (_ & _ & _ & _ & HC & _).
  apply contents_valid in HC. unfold contents, items in HC.
  rewrite !fmap_app, !Forall_app in HC.
  destruct HC as (_ & (Hw & HB & Hp & HA) & Hc).
  split_and!.
  - rewrite <- list_fmap_compose, Forall_fmap in HA.
    eapply Forall_impl; [exact HA|]. intros m Hm. unfold develop in Hm.
    simpl in Hm. by apply fmap_is_Some in Hm.
  - rewrite <- list_fmap_compose, Forall_fmap in HB.
    eapply Forall_impl; [exact HB|]. intros x Hx. unfold develop in Hx.
    simpl in Hx. by apply fmap_is_Some in Hx.
  - intros Hpc. unfold c_contents in Hc. rewrite Hpc in Hc.
    apply Forall_cons in Hc as [Hc _]. by apply fmap_is_Some in Hc.
  - intros Hpc. unfold p_items in Hp. rewrite !elem_of_cons in Hpc.
    destruct Hpc as [Hpc|[Hpc|[Hpc|Hpc]]]; [..|by apply elem_of_nil in Hpc].
    all: rewrite Hpc in Hp; simpl in Hp.
    all: apply Forall_cons in Hp as [Hp _]; unfold develop in Hp.
    all: by apply fmap_is_Some in Hp.
  - intros Hpc. unfold w_items in Hw. rewrite Hpc in Hw. simpl in Hw.
    apply Forall_cons in Hw as [Hw _]. unfold develop in Hw.
    by apply fmap_is_Some in Hw.
Qed.


(** X8: no frame is lost, duplicated or overtaken on its way.  All along
    every run, the frames written, then the frames in flight as the
    writer will receive them (the frame of the writing thread, the second
    queue, the frame of the processing thread with what remains to be
    done to it, the first queue still to be annotated, the frame the
    capture thread is about to clone), then the annotated frames still to
    be read, make up the annotated stream, in the order of the stream.
    Once the capture thread has left its loop, every frame of the stream
    is either written or in flight. *)
Theorem frames_conserved (cap0 : VideoCapture) (oo : bool)
    (sched : list Action) (s : State) :
  exec sched (init cap0 oo) = Some s →
  contents s = (Some ∘ annotate <$> yielded (stream cap0))
  ∧ (length (written (out (shared s)))
     + length (items detect drawBoundingBox s)
     ≤ length (yielded (stream cap0)))%nat
  ∧ (c_pc (capture s) = C_setFinished ∨ c_pc (capture s) = C_done →
     (length (written (out (shared s)))
      + length (items detect drawBoundingBox s)
      = length (yielded (stream cap0)))%nat).
Proof.
  intros He. apply exec_invariant_init in He as (_ & _ & _ & _ & HC & _).
  destruct HC as [HC _]. split; [exact HC|].
  apply (f_equal length) in HC. unfold contents in HC.
  rewrite !length_app, !length_fmap in HC. split; [lia|].
  intros Hpc. unfold c_contents in HC.
  destruct Hpc as [Hpc|Hpc]; rewrite Hpc in HC; simpl in HC; lia.
Qed.

(** X9: [enqueue] is never called on a finished queue.  In every run,
    once [finished] is set on a queue it stays set, and the transitions
    that follow only take items from the front of the queue. *)
Theorem finished_queue_only_drains (cap0 : VideoCapture) (oo : bool)
    (sched : list Action) (s s' : State) (a : Action) :
  exec sched (init cap0 oo) = Some s → step a s = Some s' →
  (finished (frameQueue (shared s)) = true →
     finished (frameQueue (shared s')) = true
     ∧ q (frameQueue (shared s')) `suffix_of` q (frameQueue (shared s)))
  ∧ (finished (processedQueue (shared s)) = true →
     finished (processedQueue (shared s')) = true
     ∧ q (processedQueue (shared s')) `suffix_of`
         q (processedQueue (shared s))).
Proof.
  intros He H. apply exec_invariant_init in He as (HP & _ & HY & _).
  step_pre H.
  all: unfold sync_ok, phase_ok in *; simpl in *.
  all: destruct HY as (HfA & HfB & _).
  all: step_go H; destruct_and?; simplify_eq.
  all: split; intros Hf; try done; (split; [done|]); try reflexivity.
  all: by apply suffix_cons_r.
Qed.

(** X10: the capture and the writer are released only at the end.  In
    every run, [cap] and [out] stay as their constructors left them
    until [main] has joined the three threads, and are closed when
    [main] has returned 0; so [cap.read] is only called on an opened
    capture and [out.write] only on an opened writer. *)
Theorem released_after_join (cap0 : VideoCapture) (oo : bool)
    (sched : list Action) (s : State) :
  exec sched (init cap0 oo) = Some s →
  (released s = false →
     cap_isOpened (cap (shared s)) = cap_isOpened cap0
     ∧ out_isOpened (out (shared s)) = oo)
  ∧ (released s = true →
     cap_isOpened (cap (shared s)) = false
     ∧ out_isOpened (out (shared s)) = false
     ∧ c_pc (capture s) = C_done ∧ p_pc (processing s) = P_done
     ∧ w_pc (writing s) = W_done)
  ∧ (c_pc (capture s) = C_read → cap_isOpened (cap (shared s)) = true)
  ∧ (w_pc (writing s) = W_write → out_isOpened (out (shared s)) = true).
Proof.
  intros He.
  assert (HR :
    cap_isOpened (cap (shared s))
    = (if released s then false else cap_isOpened cap0)
    ∧ out_isOpened (out (shared s)) = (if released s then false else oo)).
  { revert He. apply (exec_invariant (λ s,
      cap_isOpened (cap (shared s))
      = (if released s then false else cap_isOpened cap0)
      ∧ out_isOpened (out (shared s))
        = (if released s then false else oo))); [|done].
    intros a s1 s2. apply released_step. }
  apply exec_invariant_init in He as (HP & HS & _).
  destruct HR as [Hc Ho]. destruct_state s.
  unfold released, phase_ok, setup_ok in *. simpl in *.
  split_and!.
  - intros Hr. rewrite Hr in Hc, Ho. done.
  - intros Hr. rewrite Hr in Hc, Ho. destruct mpc; try done.
    apply bool_decide_eq_true in Hr. subst.
    destruct HP as [(_ & ? & ? & ?)|(? & _)]; done.
  - intros ->. destruct mpc; simpl in *; destruct_and?; simplify_eq;
      try done; try congruence.
    destruct HP as [(_ & ? & _)|(_ & ? & _)]; done.
  - intros ->. destruct mpc; simpl in *; destruct_and?; simplify_eq;
      try done; try congruence.
    destruct HP as [(_ & _ & _ & ?)|(_ & _ & _ & ?)]; done.
Qed.

(** X11: what a run produces does not depend on the scheduler.  Any two
    runs from the same initial state that have reached [main]'s return
    agree on the exit status, on the frames written and their order, on
    the indices that were attached to the frames, and on the number of
    calls of [cap.read]. *)
Theorem outcome_independent_of_schedule (cap0 : VideoCapture) (oo : bool)
    (sched1 sched2 : list Action) (s1 s2 : State) :
  exec sched1 (init cap0 oo) = Some s1 →
  exec sched2 (init cap0 oo) = Some s2 →
  is_Some (exit_status s1) → is_Some (exit_status s2) →
  exit_status s1 = exit_status s2
  ∧ written (out (shared s1)) = written (out (shared s2))
  ∧ indices (trace (shared s1)) = indices (trace (shared s2))
  ∧ count is_read (trace (shared s1)) = count is_read (trace (shared s2)).
Proof.
  intros He1 He2 [st1 Hx1] [st2 Hx2].
  apply exec_invariant_init in He1 as Hinv1.
  apply exec_invariant_init in He2 as Hinv2.
  destruct (exit_status_cases _ _ _ _ Hinv1 Hx1) as [(-> & Hc & Ho)|(-> & Hf)],
    (exit_status_cases _ _ _ _ Hinv2 Hx2) as [(-> & Hc' & Ho')|(-> & Hf')].
  - destruct (returned_0 _ _ _ Hinv1 Hx1)
      as (Hd1 & _ & _ & _ & _ & _ & _ & Hw1 & _).
    destruct (returned_0 _ _ _ Hinv2 Hx2)
      as (Hd2 & _ & _ & _ & _ & _ & _ & Hw2 & _).
    rewrite (indices_at_exit _ _ _ _ He1 Hx1).
    rewrite (indices_at_exit _ _ _ _ He2 Hx2).
    destruct Hinv1 as (_ & _ & _ & (_ & _ & _ & _ & Hr1) & _).
    destruct Hinv2 as (_ & _ & _ & (_ & _ & _ & _ & Hr2) & _).
    rewrite Hd1 in Hr1. rewrite Hd2 in Hr2.
    split_and!; [congruence|congruence|done|lia].
  - destruct Hf' as [?|?]; congruence.
  - destruct Hf as [?|?]; congruence.
  - destruct (open_failure_states _ _ _ Hinv1 Hf) as [E1|[[E1 _]|E1]];
      destruct (open_failure_states _ _ _ Hinv2 Hf') as [E2|[[E2 _]|E2]];
      subst; try done.
Qed.

(** *** The capture thread on its own *)

Lemma capture_enabled (s : State) :
  c_pc (capture s) ≠ C_unstarted → c_pc (capture s) ≠ C_done →
  is_Some (step (run captureThread) s).
Proof.
  destruct_state s. simpl. intros H1 H2. unfold capture_step. simpl.
  destruct cpc; try done.
  - destruct (VideoCapture_read v h cfr) as [[[ok v'] h'] m']. by eexists.
  - destruct (clone h cfr) as [h' m']. by eexists.
Qed.

Lemma capture_step_frame (s s' : State) :
  step (run captureThread) s = Some s' →
  m_pc s' = m_pc s ∧ processing s' = processing s ∧ writing s' = writing s
  ∧ out (shared s') = out (shared s)
  ∧ processedQueue (shared s') = processedQueue (shared s)
  ∧ c_pc (capture s') ≠ C_unstarted.
Proof. intros H. destruct_state s. simpl in H. step_go H; done. Qed.

Lemma capture_runs_to_its_end cap0 oo (n : nat) (s : State) :
  invariant cap0 oo s → (measure s ≤ n)%nat →
  c_pc (capture s) ≠ C_unstarted →
  ∃ (k : nat) (s' : State),
    exec (replicate k (run captureThread)) s = Some s'
    ∧ c_pc (capture s') = C_done
    ∧ m_pc s' = m_pc s ∧ processing s' = processing s
    ∧ writing s' = writing s ∧ out (shared s') = out (shared s)
    ∧ processedQueue (shared s') = processedQueue (shared s).
Proof.
  revert s. induction n as [|n IH]; intros s Hinv Hm Hst.
  all: assert (c_pc (capture s) = C_done ∨ c_pc (capture s) ≠ C_done)
    as [Hd|Hd] by (destruct (c_pc (capture s)); (by left) || (by right));
    [by exists 0%nat, s|].
  all: destruct (capture_enabled s Hst Hd) as [s1 Hs].
  all: pose proof (measure_run _ _ _ (proj1 Hinv) Hs) as Hlt.
  { lia. }
  destruct (capture_step_frame _ _ Hs) as (E1 & E2 & E3 & E4 & E5 & Hst1).
  destruct (IH s1) as (k & s' & He & ? & ? & ? & ? & ? & ?);
    [by eapply invariant_step|lia|done|].
  exists (S k), s'. split_and!; [|done|congruence..].
  change (step (run captureThread) s
            ≫= exec (replicate k (run captureThread)) = Some s').
  by rewrite Hs.
Qed.

(** X12: the first queue has no bound.  When the source and the sink
    open, the capture thread can run through the whole stream before the
    processing thread has started: the first queue then holds one frame
    for every frame that the source yielded, and nothing is written
    yet. *)
Theorem frameQueue_unbounded (cap0 : VideoCapture) :
  cap_isOpened cap0 = true →
  ∃ (sched : list Action) (s : State),
    exec sched (init cap0 true) = Some s
    ∧ length (q (frameQueue (shared s))) = length (yielded (stream cap0))
    ∧ c_pc (capture s) = C_done
    ∧ p_pc (processing s) = P_unstarted
    ∧ written (out (shared s)) = [].
Proof.
  intros Hop.
  destruct (exec (replicate 3 (run mainThread)) (init cap0 true))
    as [s3|] eqn:E3; simpl in E3; rewrite Hop in E3; simpl in E3; [|done].
  assert (Hinv : invariant cap0 true s3).
  { apply (exec_invariant_init _ _ (replicate 3 (run mainThread))).
    simpl. rewrite Hop. simpl. done. }
  destruct (capture_runs_to_its_end _ _ _ s3 Hinv (Nat.le_refl _))
    as (k & s & He & Hd & Hm & Hp & Hw & Ho & HB).
  { by simplify_eq. }
  exists (replicate 3 (run mainThread) ++ replicate k (run captureThread)), s.
  assert (Hall :
    exec (replicate 3 (run mainThread) ++ replicate k (run captureThread))
      (init cap0 true) = Some s).
  { rewrite exec_app. simpl. rewrite Hop. simpl. by simplify_eq. }
  split; [exact Hall|].
  apply exec_invariant_init in Hall as (_ & _ & _ & _ & [HC _] & _).
  simplify_eq. destruct_state s. unfold SafeQueue_new in HB. simpl in *.
  simplify_eq. unfold contents, items, c_contents in HC. simpl in HC.
  apply (f_equal length) in HC.
  rewrite app_nil_r, !length_fmap in HC. split_and!; done.
Qed.

(** *** The counter of the capture thread *)

Lemma count_read_split (tr : list Event) :
  count is_read tr = (count is_ok_read tr + count is_failed_read tr)%nat.
Proof.
  unfold count. induction tr as [|e tr IH]; simpl; [done|].
  destruct e as [?|[]| | |?| |?]; simpl; lia.
Qed.

Lemma frameCount_ok_step (a : Action) (s s' : State) :
  phase_ok s → frameCount_ok s → step a s = Some s' → frameCount_ok s'.
Proof.
  intros HP (n & Hn & Hc) H. step_pre H.
  all: unfold frameCount_ok, phase_ok in *; simpl in *.
  all: step_go H; destruct_and?; simplify_eq.
  all: rewrite ?count_snoc; simpl.
  all: try (exists n; split; [done|lia]).
  exists (S n). rewrite wrap_int_succ. split; [f_equal; lia|lia].
Qed.

(** X13: [frameCount] counts the frames read.  All along every run it
    holds the number of calls of [cap.read] that returned a frame,
    reduced to a 32-bit [int], less the one for the frame that the
    capture thread is about to enqueue or has just enqueued; when the
    capture thread has run to its end it holds the number of frames that
    the source yielded. *)
Theorem frameCount_counts_frames (cap0 : VideoCapture) (oo : bool)
    (sched : list Action) (s : State) :
  exec sched (init cap0 oo) = Some s →
  match c_pc (capture s) with
  | C_enqueue | C_incr => wrap_int (frameCount (capture s) + 1)
  | _ => frameCount (capture s)
  end = wrap_int (Z.of_nat (count is_ok_read (trace (shared s))))
  ∧ (c_pc (capture s) = C_done →
     frameCount (capture s)
     = wrap_int (Z.of_nat (length (yielded (stream cap0))))).
Proof.
  intros He.
  assert (HF : phase_ok s ∧ frameCount_ok s).
  { revert He.
    apply (exec_invariant (λ s, phase_ok s ∧ frameCount_ok s)).
    - intros a s1 s2 [HP HF] Ha.
      split; [by eapply phase_ok_step|by eapply frameCount_ok_step].
    - split; [apply invariant_init|]. by exists 0%nat. }
  destruct HF as [_ (n & Hn & Hc)].
  apply exec_invariant_init in He as (_ & _ & _ & HT & _).
  destruct HT as (_ & _ & _ & Hfail & Hreads).
  rewrite count_read_split in Hreads.
  assert (Hlhs :
    match c_pc (capture s) with
    | C_enqueue | C_incr => wrap_int (frameCount (capture s) + 1)
    | _ => frameCount (capture s)
    end = wrap_int (Z.of_nat (count is_ok_read (trace (shared s))))).
  { rewrite Hc, Hn. destruct (c_pc (capture s));
      rewrite ?wrap_int_succ; f_equal; lia. }
  split; [exact Hlhs|].
  intros Hd. rewrite Hd in *. rewrite Hn. f_equal. lia.
Qed.

(** *** The index of a frame *)

Lemma w_items_pairs (l : WritingLocals) :
  w_items (Pixels := Pixels) l = (λ x, (snd x, id)) <$> w_pairs l.
Proof. unfold w_items, w_pairs. by destruct (w_pc l). Qed.

Lemma items_pairs (s : State) :
  items detect drawBoundingBox s
  = ((λ x, (snd x, id)) <$> pairs s)
    ++ p_items detect drawBoundingBox (processing s)
    ++ ((λ m, (m, annotate)) <$> q (frameQueue (shared s))).
Proof.
  unfold items, pairs. by rewrite w_items_pairs, fmap_app, <- app_assoc.
Qed.

Lemma indices_continue (xs : list (Z * Mat)) (x : Z * Mat) (a : nat) :
  fst <$> xs = (λ k, wrap_int (Z.of_nat k)) <$> seq a (length xs) →
  fst x = wrap_int (Z.of_nat (a + length xs)) →
  fst <$> (xs ++ [x])
  = (λ k, wrap_int (Z.of_nat k)) <$> seq a (length (xs ++ [x])).
Proof.
  intros Hxs Hx. rewrite length_app, seq_app, !fmap_app, Hxs. simpl.
  by rewrite Hx.
Qed.

Lemma pairs_ok_step fs (a : Action) (s s' : State) :
  phase_ok s → trace_ok fs s → index_ok s → pairs_ok s →
  step a s = Some s' → pairs_ok s'.
Proof.
  intros HP HT HI HO H. step_pre H.
  all: unfold pairs_ok, pairs, w_pairs, phase_ok, trace_ok, index_ok,
         w_items in *; simpl in *.
  all: destruct HT as ((n & Hidx & Hfi) & _).
  all: step_go H; destruct_and?; simplify_eq; simpl in *; try done.
  - (* processedQueue.enqueue(std::make_pair(frameIndex++, frame)) *)
    rewrite Hidx, length_fmap, length_seq in HI.
    rewrite app_assoc. apply indices_continue; [exact HO|]. simpl.
    do 2 f_equal. rewrite length_app. destruct wpc; simpl in *; lia.
  - (* processedQueue.dequeue(processedFrame) *)
    congruence.
  - (* out.write(processedFrame.second) *)
    rewrite length_app. simpl. by rewrite Nat.add_1_r.
Qed.

(** X14: the index of a pair is the position of its frame in the stream.
    All along every run, the pair that is [j] places from [out.write]
    (the pair the writing thread holds, if any, then the second queue
    from its front) carries the frame at position [w + j] of the stream,
    annotated, where [w] frames are written, and the index [w + j]
    reduced to a 32-bit [int]. *)
Theorem index_matches_frame (cap0 : VideoCapture) (oo : bool)
    (sched : list Action) (s : State) (j : nat) (i : Z) (m : Mat) :
  exec sched (init cap0 oo) = Some s →
  pairs s !! j = Some (i, m) →
  ∃ p : Pixels,
    yielded (stream cap0) !! (length (written (out (shared s))) + j)%nat
    = Some p
    ∧ data (heap (shared s)) m = Some (annotate p)
    ∧ i = wrap_int (Z.of_nat (length (written (out (shared s))) + j)).
Proof.
  intros He Hj.
  assert (HO : invariant cap0 oo s ∧ pairs_ok s).
  { revert He.
    apply (exec_invariant (λ s, invariant cap0 oo s ∧ pairs_ok s)).
    - intros a s1 s2 [Hinv HO] Ha.
      split; [by eapply invariant_step|].
      destruct Hinv as (HP & _ & _ & HT & _ & HI).
      by eapply pairs_ok_step.
    - split; [apply invariant_init|done]. }
  destruct HO as [(_ & _ & _ & _ & [HC _] & _) HO].
  assert (Hi : i = wrap_int (Z.of_nat (length (written (out (shared s))) + j))).
  { apply (f_equal (λ l, l !! j)) in HO.
    rewrite !list_lookup_fmap, Hj in HO.
    rewrite lookup_seq_lt in HO by (by eapply lookup_lt_Some).
    simpl in HO. by injection HO. }
  assert (Hl : contents s !! (length (written (out (shared s))) + j)%nat
               = Some (data (heap (shared s)) m)).
  { unfold contents. rewrite items_pairs.
    rewrite lookup_app_r by (rewrite length_fmap; lia).
    rewrite length_fmap.
    replace (length (written (out (shared s))) + j
             - length (written (out (shared s))))%nat with j by lia.
    rewrite fmap_app. rewrite <- app_assoc.
    apply lookup_app_l_Some.
    rewrite !list_lookup_fmap, Hj. simpl. unfold develop. simpl.
    by destruct (data (heap (shared s)) m). }
  rewrite HC, list_lookup_fmap in Hl.
  destruct (yielded (stream cap0)
              !! (length (written (out (shared s))) + j)%nat) as [p|];
    simpl in Hl; [|done].
  exists p. split_and!; [done| |done]. by injection Hl.
Qed.
End PipelineFacts.

(** ** The runs on the small inputs *)

(** Five frames under the scheduler that takes turns: the frames are
    written in the order of the stream, with the indices 0 to 4. *)
Example ex_turns_five_frames :
  exec ex_detect ex_draw (ex_turns ex_video).1 (ex_init ex_video)
  = Some (ex_turns ex_video).2
  ∧ exit_status (ex_turns ex_video).2 = Some 0
  ∧ written (out (shared (ex_turns ex_video).2))
    = [101; 102; 103; 104; 105]%nat
  ∧ indices (trace (shared (ex_turns ex_video).2)) = [0; 1; 2; 3; 4].
Proof. vm_compute. done. Qed.

(** The same frames when every thread runs as long as it can: the first
    queue then holds the whole stream before the processing thread
    starts. *)
Example ex_eager_five_frames :
  exec ex_detect ex_draw (ex_eager ex_video).1 (ex_init ex_video)
  = Some (ex_eager ex_video).2
  ∧ exit_status (ex_eager ex_video).2 = Some 0
  ∧ written (out (shared (ex_eager ex_video).2))
    = [101; 102; 103; 104; 105]%nat
  ∧ indices (trace (shared (ex_eager ex_video).2)) = [0; 1; 2; 3; 4].
Proof. vm_compute. done. Qed.

(** The consumers wait on the empty queues, wake up spuriously and wait
    again: in the end both are in the wait sets and have no transition. *)
Example ex_spurious_wakeups :
  (λ s, (c (frameQueue (shared s)), c (processedQueue (shared s)),
         step ex_detect ex_draw (run processingThread) s,
         step ex_detect ex_draw (run writingThread) s))
    <$> exec ex_detect ex_draw ex_spurious_sched (ex_init ex_video)
  = Some ([processingThread], [writingThread], None, None).
Proof. vm_compute. reflexivity. Qed.

(** A stream that breaks off after two frames: two frames are written and
    [main] returns 0, as if the stream had ended there. *)
Example ex_broken_stream :
  exit_status (ex_turns ex_broken_video).2 = Some 0
  ∧ written (out (shared (ex_turns ex_broken_video).2)) = [101; 102]%nat
  ∧ forget_unread (ex_turns ex_broken_video).2
    = forget_unread (ex_turns [Frame 1; Frame 2]%nat).2.
Proof. vm_compute. done. Qed.

(** ** The claims at concrete inputs *)

Lemma frames_written_in_order_witness :
  cap_isOpened (ex_cap ex_video) = true
  ∧ exec ex_detect ex_draw (ex_turns ex_video).1 (init (ex_cap ex_video) true)
    = Some (ex_turns ex_video).2
  ∧ written (out (shared (ex_turns ex_video).2))
    = [101; 102; 103; 104; 105]%nat.
Proof.
  assert (H1 : cap_isOpened (ex_cap ex_video) = true) by reflexivity.
  assert (H2 : exec ex_detect ex_draw (ex_turns ex_video).1
                 (init (ex_cap ex_video) true)
               = Some (ex_turns ex_video).2) by (vm_compute; reflexivity).
  split; [exact H1|split; [exact H2|]].
  destruct (frames_written_in_order ex_detect ex_draw _ _ _ H1 H2)
    as (_ & Hend & _).
  destruct Hend as (_ & Hw & _); [vm_compute; eauto|].
  rewrite Hw. vm_compute. reflexivity.
Defined.

Lemma frame_indices_count_up_witness :
  exec ex_detect ex_draw (ex_turns ex_video).1 (init (ex_cap ex_video) true)
  = Some (ex_turns ex_video).2
  ∧ indices (trace (shared (ex_turns ex_video).2)) !! 4%nat = Some 4
  ∧ 4 = wrap_int (Z.of_nat 4)
  ∧ (Z.of_nat 4 < 2 ^ 31 → 4 = Z.of_nat 4).
Proof.
  assert (H1 : exec ex_detect ex_draw (ex_turns ex_video).1
                 (init (ex_cap ex_video) true)
               = Some (ex_turns ex_video).2) by (vm_compute; reflexivity).
  assert (H2 : indices (trace (shared (ex_turns ex_video).2)) !! 4%nat
               = Some 4) by (vm_compute; reflexivity).
  split; [exact H1|split; [exact H2|]].
  exact (frame_indices_count_up ex_detect ex_draw _ _ _ _ _ _ H1 H2).
Defined.

Lemma open_failure_exits_before_start_witness :
  (cap_isOpened ex_closed_cap = false ∨ true = false)
  ∧ exec ex_detect ex_draw [run mainThread] ex_closed_init = Some ex_failed
  ∧ trace (shared ex_failed) = []
  ∧ written (out (shared ex_failed)) = []
  ∧ exit_status ex_failed = Some (-1).
Proof.
  assert (H1 : cap_isOpened ex_closed_cap = false ∨ true = false)
    by (left; reflexivity).
  assert (H2 : exec ex_detect ex_draw [run mainThread] ex_closed_init
               = Some ex_failed) by reflexivity.
  split; [exact H1|split; [exact H2|]].
  destruct (open_failure_exits_before_start ex_detect ex_draw _ _ _ _ H1 H2)
    as (_ & Ht & _ & Hw & _).
  split; [exact Ht|split; [exact Hw|reflexivity]].
Defined.

Lemma dequeue_after_setFinished_witness :
  q {| q := ([] : list nat); c := [processingThread]; finished := false |} = []
  ∧ dequeue processingThread
      (setFinished
         {| q := ([] : list nat); c := [processingThread];
            finished := false |})
    = (ret_false, {| q := []; c := []; finished := true |}).
Proof.
  assert (H1 : q {| q := ([] : list nat); c := [processingThread];
                    finished := false |} = []) by reflexivity.
  split; [exact H1|].
  exact (proj1 (proj2 (dequeue_after_setFinished processingThread _ H1))).
Defined.

Lemma enqueue_after_setFinished_witness :
  finished {| q := [1; 2]%nat; c := []; finished := true |} = true
  ∧ (dequeue_many writingThread 4
       (enqueue 3%nat {| q := [1; 2]%nat; c := []; finished := true |})).1
    = [ret_true 1; ret_true 2; ret_true 3; ret_false]%nat.
Proof.
  assert (H1 : finished {| q := [1; 2]%nat; c := []; finished := true |}
               = true) by reflexivity.
  split; [exact H1|].
  exact (proj2 (proj2 (proj2 (proj2
    (enqueue_after_setFinished writingThread 3%nat _ H1))))).
Defined.

Lemma processingDone_is_dead_witness :
  exec ex_detect ex_draw (ex_turns ex_video).1 (init (ex_cap ex_video) true)
  = Some (ex_turns ex_video).2
  ∧ processingDone (shared (ex_turns ex_video).2) = false.
Proof.
  assert (H1 : exec ex_detect ex_draw (ex_turns ex_video).1
                 (init (ex_cap ex_video) true)
               = Some (ex_turns ex_video).2) by (vm_compute; reflexivity).
  split; [exact H1|].
  exact (proj1 (processingDone_is_dead ex_detect ex_draw _ _ _ _ H1)).
Defined.

Lemma empty_stream_terminates_witness :
  cap_isOpened (ex_cap []) = true
  ∧ yielded (stream (ex_cap [])) = []
  ∧ exec ex_detect ex_draw (ex_turns []).1 (init (ex_cap []) true)
    = Some (ex_turns []).2
  ∧ written (out (shared (ex_turns []).2)) = []
  ∧ exit_status (ex_turns []).2 = Some 0.
Proof.
  assert (H1 : cap_isOpened (ex_cap []) = true) by reflexivity.
  assert (H2 : yielded (stream (ex_cap [])) = []) by reflexivity.
  assert (H3 : exec ex_detect ex_draw (ex_turns []).1 (init (ex_cap []) true)
               = Some (ex_turns []).2) by (vm_compute; reflexivity).
  split; [exact H1|split; [exact H2|split; [exact H3|]]].
  destruct (empty_stream_terminates ex_detect ex_draw _ _ _ H1 H2 H3)
    as (Hw & Hend & _).
  split; [exact Hw|]. apply Hend. vm_compute. eauto.
Defined.

(** ** The further properties at concrete inputs *)

Lemma dequeue_waits_until_notified_witness :
  q (@SafeQueue_new nat) = [] ∧ finished (@SafeQueue_new nat) = false
  ∧ c (@SafeQueue_new nat) = []
  ∧ dequeue processingThread
      (enqueue 7%nat (dequeue processingThread SafeQueue_new).2)
    = (ret_true 7%nat, SafeQueue_new).
Proof.
  assert (H1 : q (@SafeQueue_new nat) = []) by reflexivity.
  assert (H2 : finished (@SafeQueue_new nat) = false) by reflexivity.
  assert (H3 : c (@SafeQueue_new nat) = []) by reflexivity.
  split; [exact H1|split; [exact H2|split; [exact H3|]]].
  exact (proj1 (proj2 (proj2 (proj2
    (dequeue_waits_until_notified processingThread 7%nat _ H1 H2 H3))))).
Defined.

Lemma spurious_wakeup_waits_again_witness :
  q {| q := ([] : list nat); c := [writingThread]; finished := false |} = []
  ∧ finished {| q := ([] : list nat); c := [writingThread];
                finished := false |} = false
  ∧ (processingThread
     ∉ c {| q := ([] : list nat); c := [writingThread]; finished := false |})
  ∧ dequeue processingThread
      (spurious_wakeup processingThread
         {| q := ([] : list nat); c := [writingThread; processingThread];
            finished := false |})
    = (wait, {| q := []; c := [writingThread; processingThread];
                finished := false |}).
Proof.
  assert (H1 : q {| q := ([] : list nat); c := [writingThread];
                    finished := false |} = []) by reflexivity.
  assert (H2 : finished {| q := ([] : list nat); c := [writingThread];
                           finished := false |} = false) by reflexivity.
  assert (H3 : processingThread
               ∉ c {| q := ([] : list nat); c := [writingThread];
                      finished := false |}).
  { simpl. intros Hin. apply list_elem_of_singleton in Hin. discriminate. }
  split; [exact H1|split; [exact H2|split; [exact H3|]]].
  exact (proj1 (proj2 (proj2
    (spurious_wakeup_waits_again processingThread _ H1 H2 H3)))).
Defined.

Lemma no_lost_wakeup_witness :
  exec ex_detect ex_draw (ex_turns_for 12 ex_video).1
    (init (ex_cap ex_video) true)
  = Some (ex_turns_for 12 ex_video).2
  ∧ (writingThread
     ∈ c (processedQueue (shared (ex_turns_for 12 ex_video).2)))
  ∧ w_pc (writing (ex_turns_for 12 ex_video).2) = W_dequeue
  ∧ q (processedQueue (shared (ex_turns_for 12 ex_video).2)) = [].
Proof.
  assert (H1 : exec ex_detect ex_draw (ex_turns_for 12 ex_video).1
                 (init (ex_cap ex_video) true)
               = Some (ex_turns_for 12 ex_video).2)
    by (vm_compute; reflexivity).
  assert (H2 : writingThread
               ∈ c (processedQueue (shared (ex_turns_for 12 ex_video).2)))
    by (vm_compute; left).
  split; [exact H1|split; [exact H2|]].
  destruct (proj2 (no_lost_wakeup ex_detect ex_draw _ _ _ _ H1) _ H2)
    as (_ & _ & Hw & Hq & _).
  split; [exact Hw|exact Hq].
Defined.

Lemma stages_finish_in_order_witness :
  exec ex_detect ex_draw (ex_eager_for 23 ex_video).1
    (init (ex_cap ex_video) true)
  = Some (ex_eager_for 23 ex_video).2
  ∧ finished (frameQueue (shared (ex_eager_for 23 ex_video).2)) = true
  ∧ c_pc (capture (ex_eager_for 23 ex_video).2) = C_done.
Proof.
  assert (H1 : exec ex_detect ex_draw (ex_eager_for 23 ex_video).1
                 (init (ex_cap ex_video) true)
               = Some (ex_eager_for 23 ex_video).2)
    by (vm_compute; reflexivity).
  assert (H2 : finished (frameQueue (shared (ex_eager_for 23 ex_video).2))
               = true) by (vm_compute; reflexivity).
  split; [exact H1|split; [exact H2|]].
  exact (proj1 (proj1 (stages_finish_in_order ex_detect ex_draw _ _ _ _ H1))
           H2).
Defined.

Lemma frames_never_empty_witness :
  exec ex_detect ex_draw (ex_eager_for 24 ex_video).1
    (init (ex_cap ex_video) true)
  = Some (ex_eager_for 24 ex_video).2
  ∧ p_pc (processing (ex_eager_for 24 ex_video).2) = P_detect
  ∧ is_Some (data (heap (shared (ex_eager_for 24 ex_video).2))
               (p_frame (processing (ex_eager_for 24 ex_video).2))).
Proof.
  assert (H1 : exec ex_detect ex_draw (ex_eager_for 24 ex_video).1
                 (init (ex_cap ex_video) true)
               = Some (ex_eager_for 24 ex_video).2)
    by (vm_compute; reflexivity).
  assert (H2 : p_pc (processing (ex_eager_for 24 ex_video).2) = P_detect)
    by (vm_compute; reflexivity).
  split; [exact H1|split; [exact H2|]].
  destruct (frames_never_empty ex_detect ex_draw _ _ _ _ H1)
    as (_ & _ & _ & Hp & _).
  apply Hp. rewrite H2. left.
Defined.


Lemma frames_conserved_witness :
  exec ex_detect ex_draw (ex_turns_for 16 ex_video).1
    (init (ex_cap ex_video) true)
  = Some (ex_turns_for 16 ex_video).2
  ∧ contents ex_detect ex_draw (ex_turns_for 16 ex_video).2
    = Some <$> [101; 102; 103; 104; 105]%nat.
Proof.
  assert (H1 : exec ex_detect ex_draw (ex_turns_for 16 ex_video).1
                 (init (ex_cap ex_video) true)
               = Some (ex_turns_for 16 ex_video).2)
    by (vm_compute; reflexivity).
  split; [exact H1|].
  rewrite (proj1 (frames_conserved ex_detect ex_draw _ _ _ _ H1)).
  vm_compute. reflexivity.
Defined.

Lemma finished_queue_only_drains_witness :
  exec ex_detect ex_draw (ex_eager_for 23 ex_video).1
    (init (ex_cap ex_video) true)
  = Some (ex_eager_for 23 ex_video).2
  ∧ step ex_detect ex_draw (run processingThread) (ex_eager_for 23 ex_video).2
    = Some (ex_eager_for 24 ex_video).2
  ∧ finished (frameQueue (shared (ex_eager_for 23 ex_video).2)) = true
  ∧ finished (frameQueue (shared (ex_eager_for 24 ex_video).2)) = true
  ∧ q (frameQueue (shared (ex_eager_for 24 ex_video).2))
    `suffix_of` q (frameQueue (shared (ex_eager_for 23 ex_video).2)).
Proof.
  assert (H1 : exec ex_detect ex_draw (ex_eager_for 23 ex_video).1
                 (init (ex_cap ex_video) true)
               = Some (ex_eager_for 23 ex_video).2)
    by (vm_compute; reflexivity).
  assert (H2 : step ex_detect ex_draw (run processingThread)
                 (ex_eager_for 23 ex_video).2
               = Some (ex_eager_for 24 ex_video).2)
    by (vm_compute; reflexivity).
  assert (H3 : finished (frameQueue (shared (ex_eager_for 23 ex_video).2))
               = true) by (vm_compute; reflexivity).
  split; [exact H1|split; [exact H2|split; [exact H3|]]].
  exact (proj1
    (finished_queue_only_drains ex_detect ex_draw _ _ _ _ _ _ H1 H2) H3).
Defined.

Lemma released_after_join_witness :
  exec ex_detect ex_draw (ex_turns ex_video).1 (init (ex_cap ex_video) true)
  = Some (ex_turns ex_video).2
  ∧ released (ex_turns ex_video).2 = true
  ∧ cap_isOpened (cap (shared (ex_turns ex_video).2)) = false
  ∧ out_isOpened (out (shared (ex_turns ex_video).2)) = false.
Proof.
  assert (H1 : exec ex_detect ex_draw (ex_turns ex_video).1
                 (init (ex_cap ex_video) true)
               = Some (ex_turns ex_video).2) by (vm_compute; reflexivity).
  assert (H2 : released (ex_turns ex_video).2 = true)
    by (vm_compute; reflexivity).
  split; [exact H1|split; [exact H2|]].
  destruct (proj1 (proj2 (released_after_join ex_detect ex_draw _ _ _ _ H1))
              H2) as (Hc & Ho & _).
  split; [exact Hc|exact Ho].
Defined.

Lemma outcome_independent_of_schedule_witness :
  exec ex_detect ex_draw (ex_turns ex_video).1 (init (ex_cap ex_video) true)
  = Some (ex_turns ex_video).2
  ∧ exec ex_detect ex_draw (ex_eager ex_video).1 (init (ex_cap ex_video) true)
    = Some (ex_eager ex_video).2
  ∧ is_Some (exit_status (ex_turns ex_video).2)
  ∧ is_Some (exit_status (ex_eager ex_video).2)
  ∧ (ex_turns ex_video).1 ≠ (ex_eager ex_video).1
  ∧ written (out (shared (ex_turns ex_video).2))
    = written (out (shared (ex_eager ex_video).2)).
Proof.
  assert (H1 : exec ex_detect ex_draw (ex_turns ex_video).1
                 (init (ex_cap ex_video) true)
               = Some (ex_turns ex_video).2) by (vm_compute; reflexivity).
  assert (H2 : exec ex_detect ex_draw (ex_eager ex_video).1
                 (init (ex_cap ex_video) true)
               = Some (ex_eager ex_video).2) by (vm_compute; reflexivity).
  assert (H3 : is_Some (exit_status (ex_turns ex_video).2))
    by (vm_compute; eauto).
  assert (H4 : is_Some (exit_status (ex_eager ex_video).2))
    by (vm_compute; eauto).
  split; [exact H1|split; [exact H2|split; [exact H3|split; [exact H4|]]]].
  split; [vm_compute; discriminate|].
  exact (proj1 (proj2
    (outcome_independent_of_schedule ex_detect ex_draw _ _ _ _ _ _
       H1 H2 H3 H4))).
Defined.

Lemma frameQueue_unbounded_witness :
  cap_isOpened (ex_cap ex_video) = true
  ∧ ∃ sched s,
      exec ex_detect ex_draw sched (init (ex_cap ex_video) true) = Some s
      ∧ length (q (frameQueue (shared s))) = 5%nat.
Proof.
  assert (H1 : cap_isOpened (ex_cap ex_video) = true) by reflexivity.
  split; [exact H1|].
  destruct (frameQueue_unbounded ex_detect ex_draw _ H1)
    as (sched & s & He & Hl & _).
  exists sched, s. split; [exact He|exact Hl].
Defined.

Lemma frameCount_counts_frames_witness :
  exec ex_detect ex_draw (ex_turns ex_video).1 (init (ex_cap ex_video) true)
  = Some (ex_turns ex_video).2
  ∧ c_pc (capture (ex_turns ex_video).2) = C_done
  ∧ frameCount (capture (ex_turns ex_video).2) = 5.
Proof.
  assert (H1 : exec ex_detect ex_draw (ex_turns ex_video).1
                 (init (ex_cap ex_video) true)
               = Some (ex_turns ex_video).2) by (vm_compute; reflexivity).
  assert (H2 : c_pc (capture (ex_turns ex_video).2) = C_done)
    by (vm_compute; reflexivity).
  split; [exact H1|split; [exact H2|]].
  rewrite (proj2 (frameCount_counts_frames ex_detect ex_draw _ _ _ _ H1) H2).
  reflexivity.
Defined.

Lemma index_matches_frame_witness :
  exec ex_detect ex_draw (ex_turns_for 16 ex_video).1
    (init (ex_cap ex_video) true)
  = Some (ex_turns_for 16 ex_video).2
  ∧ pairs (ex_turns_for 16 ex_video).2 !! 0%nat = Some (0, Some 1%nat)
  ∧ ∃ p : nat,
      ex_video !! 0%nat = Some (Frame p)
      ∧ data (heap (shared (ex_turns_for 16 ex_video).2)) (Some 1%nat)
        = Some (p + 100)%nat.
Proof.
  assert (H1 : exec ex_detect ex_draw (ex_turns_for 16 ex_video).1
                 (init (ex_cap ex_video) true)
               = Some (ex_turns_for 16 ex_video).2)
    by (vm_compute; reflexivity).
  assert (H2 : pairs (ex_turns_for 16 ex_video).2 !! 0%nat
               = Some (0, Some 1%nat)) by (vm_compute; reflexivity).
  split; [exact H1|split; [exact H2|]].
  destruct (index_matches_frame ex_detect ex_draw _ _ _ _ _ _ _ H1 H2)
    as (p & Hp & Hd & _).
  exists p. split; [|rewrite Hd; vm_compute; reflexivity].
  vm_compute in Hp. vm_compute. congruence.
Defined.

(** ** Where the claims fail *)

(** C3 as it is stated fails on a stream of [2^31 + 1] frames: the run
    reaches [main]'s return, and the pair enqueued after [2^31] others
    carries the index [-2^31], below every index before it. *)
Lemma frame_index_overflows :
  ∃ sched s,
    exec no_detect no_draw sched
      (init {| cap_isOpened := true; stream := long_video |} true) = Some s
    ∧ indices (trace (shared s)) !! Z.to_nat 2147483648
      = Some (-2147483648)
    ∧ indices (trace (shared s)) !! Z.to_nat 2147483647
      = Some 2147483647.
Proof.
  destruct (run_to_exit no_detect no_draw
              {| cap_isOpened := true; stream := long_video |} true)
    as (sched & s & He & [st Hx]).
  exists sched, s. split; [exact He|].
  pose proof (exec_invariant_init _ _ _ _ _ _ He) as Hinv.
  destruct (exit_status_cases _ _ _ _ _ _ Hinv Hx) as [(-> & _)|(_ & [?|?])];
    [|done..].
  rewrite (indices_at_exit _ _ _ _ _ _ He Hx).
  unfold long_video. cbn [stream].
  rewrite yielded_replicate, length_replicate, !list_lookup_fmap.
  rewrite !lookup_seq_lt by lia.
  change (0 + ?n)%nat with n. cbn [fmap option_fmap option_map].
  rewrite !Z2Nat.id by lia. split; reflexivity.
Qed.

(** C8 as it is stated fails: in no run on the five frames does
    [processingDone] ever hold [true]; nothing sets it. *)
Lemma processingDone_never_set :
  ¬ ∃ sched s,
      exec ex_detect ex_draw sched (init (ex_cap ex_video) true) = Some s
      ∧ processingDone (shared s) = true.
Proof.
  intros (sched & s & He & Hd).
  rewrite (processingDone_exec _ _ _ _ _ _ He) in Hd. discriminate.
Qed.
